(** * Multithreaded web crawler: bounded queue and URL frontier

    A shallow embedding of [include/crawler/url_frontier.h] and of the
    translation unit that defines [URLFrontier::try_add], together with the
    bounded blocking queue the frontier is built on.

    Every operation of the two classes takes its decision inside one
    critical section (a [std::mutex] for the queue, a [std::shared_mutex]
    for the visited set), so a critical section is embedded as a function
    from the state it finds to the state it leaves and the value it yields.
    [try_add] runs three of them in a row without holding a lock in
    between; it is given both as their composition, for a call that is not
    interrupted, and as three separate steps of a thread, for calls that
    race with each other under an arbitrary schedule.

    A blocking call with a timeout decides at the instant its wait ends:
    [push] succeeds if there is room then, [pop] if there is an item then.
    When that instant comes is the scheduler's choice, so the timeout is
    carried as an argument of the calls and does not otherwise enter the
    outcome. *)

From Stdlib Require Import ZArith List Lia Bool.
From stdpp Require Import base gmap sets list strings.

Set Default Proof Using "Type".

(** ** Machine integers *)

(** [size_t] on the 64-bit targets the crawler is built for. *)
Definition SIZE_WIDTH : Z := 64.
Definition SIZE_MODULUS : Z := 2 ^ SIZE_WIDTH.

(** [x++] on a [std::atomic<size_t>]: unsigned, wraps around. *)
Definition size_incr (x : Z) : Z := ((x + 1) mod SIZE_MODULUS)%Z.

(** [std::chrono::milliseconds]: a signed tick count. *)
Definition milliseconds : Type := Z.
Bind Scope Z_scope with milliseconds.

(** ** BoundedQueue<T> *)

Module BoundedQueue.

Section Queue.
Context {T : Type}.

(** Modelled from the spec: [crawler/bounded_queue.h] is included by the
    frontier but is not part of the sources; the state is the one of the
    data model (capacity, items in FIFO order, shutdown flag). *)
Record t : Type := mk {
  capacity_ : nat;
  items_ : list T;
  shutdown_flag_ : bool
}.

(** Modelled from the spec: the constructor of [bounded_queue.h], an empty
    queue of the given capacity that is not shut down. *)
Definition new (cap : nat) : t :=
  {| capacity_ := cap; items_ := []; shutdown_flag_ := false |}.

(** Modelled from the spec: [push(value, timeout)] of [bounded_queue.h].
    Returns false once shutdown is signaled, appends at the tail and
    returns true when there is room, and returns false (value not
    enqueued) when the wait for room ends with the queue still full. *)
Definition push (q : t) (value : T) (timeout : milliseconds) : t * bool :=
  if shutdown_flag_ q then (q, false)
  else if length (items_ q) <? capacity_ q then
    ({| capacity_ := capacity_ q;
        items_ := items_ q ++ [value];
        shutdown_flag_ := shutdown_flag_ q |}, true)
  else (q, false).

(** Modelled from the spec: [pop(timeout)] of [bounded_queue.h].  Removes
    and returns the head item when one exists (also after shutdown), and
    returns the empty optional when the wait ends on an empty queue. *)
Definition pop (q : t) (timeout : milliseconds) : t * option T :=
  match items_ q with
  | [] => (q, None)
  | x :: rest =>
      ({| capacity_ := capacity_ q;
          items_ := rest;
          shutdown_flag_ := shutdown_flag_ q |}, Some x)
  end.

(** Modelled from the spec: the snapshot [size()] of [bounded_queue.h]. *)
Definition size (q : t) : nat := length (items_ q).

(** Modelled from the spec: the snapshot [empty()] of [bounded_queue.h]. *)
Definition empty (q : t) : bool :=
  match items_ q with [] => true | _ :: _ => false end.

(** Modelled from the spec: the snapshot [capacity()] of
    [bounded_queue.h]. *)
Definition capacity (q : t) : nat := capacity_ q.

(** Modelled from the spec: [shutdown()] of [bounded_queue.h] sets the
    flag (waking the waiters has no effect on the state). *)
Definition shutdown (q : t) : t :=
  {| capacity_ := capacity_ q; items_ := items_ q; shutdown_flag_ := true |}.

(** Modelled from the spec: [is_shutdown()] of [bounded_queue.h]. *)
Definition is_shutdown (q : t) : bool := shutdown_flag_ q.

(** *** Histories

    The queue is linearizable at its mutex, so every concurrent execution
    is a sequence of calls, each taking effect at once. *)

Inductive op : Type :=
| Push (value : T) (timeout : milliseconds)
| Pop (timeout : milliseconds)
| Shutdown.

Inductive event : Type :=
| Pushed (value : T) (ok : bool)
| Popped (r : option T)
| ShutDown.

Definition exec (q : t) (o : op) : t * event :=
  match o with
  | Push v timeout => let '(q', ok) := push q v timeout in (q', Pushed v ok)
  | Pop timeout => let '(q', r) := pop q timeout in (q', Popped r)
  | Shutdown => (shutdown q, ShutDown)
  end.

Fixpoint run (q : t) (ops : list op) : t * list event :=
  match ops with
  | [] => (q, [])
  | o :: ops' =>
      let '(q1, e) := exec q o in
      let '(q2, tr) := run q1 ops' in
      (q2, e :: tr)
  end.

(** The values enqueued by the successful pushes of a history, in order. *)
Fixpoint enqueued (tr : list event) : list T :=
  match tr with
  | [] => []
  | Pushed v true :: tr' => v :: enqueued tr'
  | _ :: tr' => enqueued tr'
  end.

(** The values handed out by the pops of a history, in order. *)
Fixpoint dequeued (tr : list event) : list T :=
  match tr with
  | [] => []
  | Popped (Some v) :: tr' => v :: dequeued tr'
  | _ :: tr' => dequeued tr'
  end.

(** What each pop of a history returned, in order. *)
Fixpoint pop_results (tr : list event) : list (option T) :=
  match tr with
  | [] => []
  | Popped r :: tr' => r :: pop_results tr'
  | _ :: tr' => pop_results tr'
  end.

(** What each push of a history returned, in order. *)
Fixpoint push_results (tr : list event) : list bool :=
  match tr with
  | [] => []
  | Pushed _ ok :: tr' => ok :: push_results tr'
  | _ :: tr' => push_results tr'
  end.

End Queue.

Arguments t : clear implicits.
Arguments op : clear implicits.
Arguments event : clear implicits.

End BoundedQueue.

(** ** URLFrontier *)

Module URLFrontier.

(** [struct Stats] (url_frontier.h, lines 99-103). *)
Record Stats : Type := mkStats {
  urls_added : Z;
  duplicates_skipped : Z;
  invalid_skipped : Z
}.

(** The private members (url_frontier.h, lines 125-132); the shared mutex
    carries no data and is represented by the atomicity of the sections
    below. *)
Record t : Type := mk {
  queue_ : BoundedQueue.t string;
  visited_ : gset string;
  urls_added_ : Z;
  duplicates_skipped_ : Z;
  invalid_skipped_ : Z
}.

(** [explicit URLFrontier(size_t queue_capacity)] (lines 17-18). *)
Definition new (queue_capacity : nat) : t :=
  {| queue_ := BoundedQueue.new queue_capacity;
     visited_ := ∅;
     urls_added_ := 0;
     duplicates_skipped_ := 0;
     invalid_skipped_ := 0 |}.

Definition set_queue (f : t) (q : BoundedQueue.t string) : t :=
  {| queue_ := q;
     visited_ := visited_ f;
     urls_added_ := urls_added_ f;
     duplicates_skipped_ := duplicates_skipped_ f;
     invalid_skipped_ := invalid_skipped_ f |}.

Definition set_visited (f : t) (s : gset string) : t :=
  {| queue_ := queue_ f;
     visited_ := s;
     urls_added_ := urls_added_ f;
     duplicates_skipped_ := duplicates_skipped_ f;
     invalid_skipped_ := invalid_skipped_ f |}.

(** [urls_added_++] *)
Definition count_added (f : t) : t :=
  {| queue_ := queue_ f;
     visited_ := visited_ f;
     urls_added_ := size_incr (urls_added_ f);
     duplicates_skipped_ := duplicates_skipped_ f;
     invalid_skipped_ := invalid_skipped_ f |}.

(** [duplicates_skipped_++] *)
Definition count_duplicate (f : t) : t :=
  {| queue_ := queue_ f;
     visited_ := visited_ f;
     urls_added_ := urls_added_ f;
     duplicates_skipped_ := size_incr (duplicates_skipped_ f);
     invalid_skipped_ := invalid_skipped_ f |}.

(** [std::unordered_set::count]: 1 when the key is stored, else 0. *)
Definition set_count (s : gset string) (key : string) : Z :=
  if decide (key ∈ s) then 1%Z else 0%Z.

(** [std::unordered_set::insert]: the set afterwards and whether the key
    was inserted by this call. *)
Definition set_insert (s : gset string) (key : string) : gset string * bool :=
  if decide (key ∈ s) then (s, false) else ({[key]} ∪ s, true).

(** *** try_add, one critical section at a time *)

(** Lines 139-146: the probe under the shared (read) lock.  [Some b] is a
    [return b]; [None] falls through to the next block. *)
Definition probe_visited (f : t) (url : string) : t * option bool :=
  if (0 <? set_count (visited_ f) url)%Z then (count_duplicate f, Some false)
  else (f, None).

(** Lines 149-156: insertion under the exclusive (write) lock. *)
Definition insert_visited (f : t) (url : string) : t * option bool :=
  let '(s, inserted) := set_insert (visited_ f) url in
  let f1 := set_visited f s in
  if negb inserted then (count_duplicate f1, Some false)
  else (f1, None).

(** Lines 158-165: the hand-over to the bounded queue. *)
Definition enqueue (f : t) (url : string) (timeout : milliseconds) : t * bool :=
  let '(q, pushed) := BoundedQueue.push (queue_ f) url timeout in
  let f1 := set_queue f q in
  if pushed then (count_added f1, true)
  else (f1, false).

(** [URLFrontier::try_add] (lines 136-168), run without interruption. *)
Definition try_add (f : t) (url : string) (timeout : milliseconds) : t * bool :=
  match probe_visited f url with
  | (f1, Some r) => (f1, r)
  | (f1, None) =>
      match insert_visited f1 url with
      | (f2, Some r) => (f2, r)
      | (f2, None) => enqueue f2 url timeout
      end
  end.

(** *** The members declared in the header without a body *)

(** Modelled from the spec: [try_add_nowait] has no definition in the
    sources; it is [try_add] with a zero wait. *)
Definition try_add_nowait (f : t) (url : string) : t * bool :=
  try_add f url 0%Z.

(** Modelled from the spec: [add_batch] has no definition in the sources;
    it applies [try_add_nowait] to each URL in sequence and returns the
    number newly enqueued.  This is its loop, [count] being the number
    enqueued so far. *)
Fixpoint add_batch_from (f : t) (urls : list string) (count : Z) : t * Z :=
  match urls with
  | [] => (f, count)
  | url :: rest =>
      let '(f1, added) := try_add_nowait f url in
      add_batch_from f1 rest (if added then size_incr count else count)
  end.

(** Modelled from the spec: [add_batch] has no definition in the sources;
    the loop above, started with a count of zero. *)
Definition add_batch (f : t) (urls : list string) : t * Z :=
  add_batch_from f urls 0%Z.

(** Modelled from the spec: [pop] has no definition in the sources; it is
    a thin delegation to the embedded queue. *)
Definition pop (f : t) (timeout : milliseconds) : t * option string :=
  let '(q, r) := BoundedQueue.pop (queue_ f) timeout in (set_queue f q, r).

(** Modelled from the spec: [is_visited] has no definition in the sources;
    it is a membership test against the visited set. *)
Definition is_visited (f : t) (url : string) : bool :=
  bool_decide (url ∈ visited_ f).

(** Modelled from the spec: [mark_visited] has no definition in the
    sources; it inserts into the visited set without touching the queue. *)
Definition mark_visited (f : t) (url : string) : t :=
  set_visited f (fst (set_insert (visited_ f) url)).

(** Modelled from the spec: [shutdown] has no definition in the sources;
    it delegates to the embedded queue. *)
Definition shutdown (f : t) : t :=
  set_queue f (BoundedQueue.shutdown (queue_ f)).

(** Modelled from the spec: [visited_count] has no definition in the
    sources; it is the number of elements of the visited set. *)
Definition visited_count (f : t) : nat := size (visited_ f).

(** Lines 74, 79, 84 and 94: inline delegations to the queue. *)
Definition is_shutdown (f : t) : bool := BoundedQueue.is_shutdown (queue_ f).
Definition queue_size (f : t) : nat := BoundedQueue.size (queue_ f).
Definition queue_empty (f : t) : bool := BoundedQueue.empty (queue_ f).
Definition capacity (f : t) : nat := BoundedQueue.capacity (queue_ f).

(** [stats()] (lines 105-111): a copy of the three counters. *)
Definition stats (f : t) : Stats :=
  {| urls_added := urls_added_ f;
     duplicates_skipped := duplicates_skipped_ f;
     invalid_skipped := invalid_skipped_ f |}.

(** *** Sequences of calls *)

Inductive call : Type :=
| TryAdd (url : string) (timeout : milliseconds)
| TryAddNowait (url : string)
| AddBatch (urls : list string)
| Pop (timeout : milliseconds)
| IsVisited (url : string)
| MarkVisited (url : string)
| Shutdown.

Inductive result : Type :=
| RBool (b : bool)
| RCount (n : Z)
| RUrl (r : option string)
| RVoid.

Definition exec (f : t) (c : call) : t * result :=
  match c with
  | TryAdd url timeout => let '(f', b) := try_add f url timeout in (f', RBool b)
  | TryAddNowait url => let '(f', b) := try_add_nowait f url in (f', RBool b)
  | AddBatch urls => let '(f', n) := add_batch f urls in (f', RCount n)
  | Pop timeout => let '(f', r) := pop f timeout in (f', RUrl r)
  | IsVisited url => (f, RBool (is_visited f url))
  | MarkVisited url => (mark_visited f url, RVoid)
  | Shutdown => (shutdown f, RVoid)
  end.

Fixpoint run (f : t) (cs : list call) : t * list result :=
  match cs with
  | [] => (f, [])
  | c :: cs' =>
      let '(f1, r) := exec f c in
      let '(f2, rs) := run f1 cs' in
      (f2, r :: rs)
  end.

(** One record per call of [try_add url] made back to back with the given
    timeouts: the state found, the value returned, the state left. *)
Fixpoint try_add_log (f : t) (url : string) (timeouts : list milliseconds)
  : list (t * bool * t) :=
  match timeouts with
  | [] => []
  | timeout :: rest =>
      let '(f', r) := try_add f url timeout in
      (f, r, f') :: try_add_log f' url rest
  end.

(** *** Concurrent callers

    A thread inside [try_add] holds no lock between its three blocks, so
    other threads may run there.  Each block is one atomic step: the
    counter increment that follows a decision is taken in the same step as
    the decision, since no other thread's decision depends on a counter. *)

(** The block of [try_add] a thread is about to execute: lines 139-146,
    lines 149-156, lines 158-165. *)
Inductive point : Type := AtProbe | AtInsert | AtPush.

(** One block of [try_add]: the state afterwards, and either the block to
    run next or the value returned. *)
Definition try_add_section (f : t) (p : point) (url : string)
    (timeout : milliseconds) : t * (point + bool) :=
  match p with
  | AtProbe =>
      match probe_visited f url with
      | (f', Some r) => (f', inr r)
      | (f', None) => (f', inl AtInsert)
      end
  | AtInsert =>
      match insert_visited f url with
      | (f', Some r) => (f', inr r)
      | (f', None) => (f', inl AtPush)
      end
  | AtPush => let '(f', r) := enqueue f url timeout in (f', inr r)
  end.

(** Where a running thread stands inside its call. *)
Inductive local : Type :=
| Entry
| InTryAdd (p : point)
| InBatch (p : point) (url : string) (rest : list string) (count : Z).

Inductive thread : Type :=
| Running (c : call) (l : local)
| Returned (c : call) (r : result).

(** A thread that has just made the call. *)
Definition enter (c : call) : thread :=
  match c with
  | TryAdd _ _ | TryAddNowait _ => Running c (InTryAdd AtProbe)
  | AddBatch [] => Returned c (RCount 0)
  | AddBatch (url :: rest) => Running c (InBatch AtProbe url rest 0)
  | Pop _ | IsVisited _ | MarkVisited _ | Shutdown => Running c Entry
  end.

(** The next atomic step of a thread.  A returned thread, and a thread
    whose position does not belong to its call, stays as it is. *)
Definition step (f : t) (th : thread) : t * thread :=
  match th with
  | Returned _ _ => (f, th)
  | Running c l =>
      match c, l with
      | TryAdd url timeout, InTryAdd p =>
          match try_add_section f p url timeout with
          | (f', inl p') => (f', Running c (InTryAdd p'))
          | (f', inr b) => (f', Returned c (RBool b))
          end
      | TryAddNowait url, InTryAdd p =>
          match try_add_section f p url 0%Z with
          | (f', inl p') => (f', Running c (InTryAdd p'))
          | (f', inr b) => (f', Returned c (RBool b))
          end
      | AddBatch _, InBatch p url rest count =>
          match try_add_section f p url 0%Z with
          | (f', inl p') => (f', Running c (InBatch p' url rest count))
          | (f', inr b) =>
              let count' := if b then size_incr count else count in
              match rest with
              | [] => (f', Returned c (RCount count'))
              | next :: rest' =>
                  (f', Running c (InBatch AtProbe next rest' count'))
              end
          end
      | (Pop _ | IsVisited _ | MarkVisited _ | Shutdown), Entry =>
          let '(f', r) := exec f c in (f', Returned c r)
      | _, _ => (f, th)
      end
  end.

(** The shared frontier and the threads using it. *)
Definition config : Type := t * list thread.

Definition spawn (f : t) (cs : list call) : config := (f, map enter cs).

(** Thread [i] takes its next step (nothing happens when there is no such
    thread). *)
Definition step_at (cfg : config) (i : nat) : config :=
  match snd cfg !! i with
  | None => cfg
  | Some th =>
      let '(f', th') := step (fst cfg) th in (f', <[i := th']> (snd cfg))
  end.

(** A schedule names the thread that moves at each instant. *)
Definition run_schedule (cfg : config) (schedule : list nat) : config :=
  fold_left step_at schedule cfg.

(** A thread running on its own for [n] steps. *)
Fixpoint run_alone (n : nat) (f : t) (th : thread) : t * thread :=
  match n with
  | 0 => (f, th)
  | S n' => let '(f', th') := step f th in run_alone n' f' th'
  end.

(** Steps that suffice for a call to return when nothing interferes. *)
Definition fuel (c : call) : nat :=
  match c with
  | AddBatch urls => 3 * length urls
  | _ => 3
  end.

(** The schedule that lets the calls run one after the other, thread [i]
    being the first of them. *)
Fixpoint sequential_schedule (i : nat) (cs : list call) : list nat :=
  match cs with
  | [] => []
  | c :: cs' => replicate (fuel c) i ++ sequential_schedule (S i) cs'
  end.

(** The URL a thread is about to hand to [queue_.push], if any. *)
Definition pushing (th : thread) : option string :=
  match th with
  | Running (TryAdd url _) (InTryAdd AtPush) => Some url
  | Running (TryAddNowait url) (InTryAdd AtPush) => Some url
  | Running (AddBatch _) (InBatch AtPush url _ _) => Some url
  | _ => None
  end.

(** The URLs waiting in the embedded queue. *)
Definition items (f : t) : list string := BoundedQueue.items_ (queue_ f).

(** A thread that got past the insertion of [url] into the visited set:
    it is about to push [url], or its [try_add url] has returned true. *)
Definition winner (url : string) (th : thread) : Prop :=
  pushing th = Some url
  \/ match th with
     | Returned (TryAdd u _) (RBool true) => u = url
     | Returned (TryAddNowait u) (RBool true) => u = url
     | _ => False
     end.

(** What one step of one thread, from [(f, th)] to [(f', th')], may
    change: the visited set grows, [invalid_skipped] and a raised shutdown
    flag stay, a new item of the queue is the URL the thread was pushing,
    a thread that reaches the push has its URL visited, and a thread that
    becomes a winner found its URL absent and inserted it. *)
Definition step_effect (f : t) (th : thread) (f' : t) (th' : thread) : Prop :=
  visited_ f ⊆ visited_ f'
  /\ invalid_skipped_ f' = invalid_skipped_ f
  /\ (is_shutdown f = true -> is_shutdown f' = true)
  /\ (forall u, u ∈ items f' -> u ∈ items f \/ pushing th = Some u)
  /\ (forall u, pushing th' = Some u -> u ∈ visited_ f')
  /\ (forall u, winner u th' ->
        winner u th \/ ((u ∉ visited_ f) /\ u ∈ visited_ f')).

(** Every URL in the queue, and every URL a thread is about to push, is
    in the visited set. *)
Definition queued_is_visited (cfg : config) : Prop :=
  (forall u, u ∈ items (fst cfg) -> u ∈ visited_ (fst cfg))
  /\ (forall (i : nat) th u,
        snd cfg !! i = Some th -> pushing th = Some u ->
        u ∈ visited_ (fst cfg)).

(** At most one thread is a winner for [url], and then [url] is in the
    visited set. *)
Definition one_winner (url : string) (cfg : config) : Prop :=
  (forall (i : nat) th,
      snd cfg !! i = Some th -> winner url th -> url ∈ visited_ (fst cfg))
  /\ (forall (i j : nat) thi thj,
        snd cfg !! i = Some thi -> snd cfg !! j = Some thj ->
        winner url thi -> winner url thj -> i = j).

(** *** Where a URL is

    Definitions used to follow a URL from [try_add] through the queue to
    the thread that pops it. *)

(** The URL a thread holds outside the queue: the one it is about to hand
    to [queue_.push], or the one a [pop] has handed to it. *)
Definition holding (th : thread) : option string :=
  match th with
  | Returned (Pop _) (RUrl (Some url)) => Some url
  | _ => pushing th
  end.

(** The kinds of step a thread can take, from [(f, th)] to [(f', th')]:
    one that leaves the frontier alone; a duplicate exit of [try_add]
    (line 143 or 153); the insertion of a new URL (line 151); the push of
    line 159, accepted or refused; and the calls that are a single
    critical section. *)
Inductive transition (f : t) (th : thread) (f' : t) (th' : thread) : Prop :=
| quiet_step :
    f' = f -> holding th' = holding th -> transition f th f' th'
| duplicate_step :
    f' = count_duplicate f -> holding th = None -> holding th' = None ->
    transition f th f' th'
| insert_step (u : string) :
    u ∉ visited_ f -> f' = set_visited f ({[u]} ∪ visited_ f) ->
    holding th = None -> holding th' = Some u ->
    transition f th f' th'
| push_step (u : string) (timeout : milliseconds) :
    holding th = Some u ->
    snd (BoundedQueue.push (queue_ f) u timeout) = true ->
    f' = count_added
           (set_queue f (fst (BoundedQueue.push (queue_ f) u timeout))) ->
    holding th' = None ->
    transition f th f' th'
| refused_step (u : string) (timeout : milliseconds) :
    holding th = Some u ->
    snd (BoundedQueue.push (queue_ f) u timeout) = false ->
    f' = f -> holding th' = None ->
    transition f th f' th'
| pop_step (timeout : milliseconds) :
    holding th = None ->
    f' = set_queue f (fst (BoundedQueue.pop (queue_ f) timeout)) ->
    holding th' = snd (BoundedQueue.pop (queue_ f) timeout) ->
    transition f th f' th'
| mark_step (u : string) :
    f' = mark_visited f u -> holding th = None -> holding th' = None ->
    transition f th f' th'
| shutdown_step :
    f' = shutdown f -> holding th = None -> holding th' = None ->
    transition f th f' th'.

(** No URL is in two places at once: the queue holds each of its URLs
    once, a URL held by a thread is not in the queue, no two threads hold
    the same URL, and all of these URLs are visited. *)
Definition handed_out_once (cfg : config) : Prop :=
  NoDup (items (fst cfg))
  /\ (forall u, u ∈ items (fst cfg) -> u ∈ visited_ (fst cfg))
  /\ (forall (i : nat) th u,
        snd cfg !! i = Some th -> holding th = Some u ->
        u ∈ visited_ (fst cfg) /\ (u ∉ items (fst cfg)))
  /\ (forall (i j : nat) thi thj u,
        snd cfg !! i = Some thi -> snd cfg !! j = Some thj ->
        holding thi = Some u -> holding thj = Some u -> i = j).

(** The URLs of a batch that [add_batch] puts into the queue, in order. *)
Fixpoint batch_accepted (f : t) (urls : list string) : list string :=
  match urls with
  | [] => []
  | url :: rest =>
      let '(f1, added) := try_add_nowait f url in
      (if added then [url] else []) ++ batch_accepted f1 rest
  end.

(** The URLs a call puts into the queue when made on [f]. *)
Definition accepted_by (f : t) (c : call) : list string :=
  match c with
  | TryAdd url timeout => if snd (try_add f url timeout) then [url] else []
  | TryAddNowait url => if snd (try_add_nowait f url) then [url] else []
  | AddBatch urls => batch_accepted f urls
  | Pop _ | IsVisited _ | MarkVisited _ | Shutdown => []
  end.

(** The URLs a sequence of calls puts into the queue, in order. *)
Fixpoint accepted (f : t) (cs : list call) : list string :=
  match cs with
  | [] => []
  | c :: cs' => accepted_by f c ++ accepted (fst (exec f c)) cs'
  end.

(** The URLs handed out by the pops among the results of a sequence of
    calls, in order. *)
Fixpoint popped (rs : list result) : list string :=
  match rs with
  | [] => []
  | RUrl (Some url) :: rs' => url :: popped rs'
  | _ :: rs' => popped rs'
  end.

(** The URLs a call submits to the visited set. *)
Definition submitted (c : call) : list string :=
  match c with
  | TryAdd url _ | TryAddNowait url | MarkVisited url => [url]
  | AddBatch urls => urls
  | Pop _ | IsVisited _ | Shutdown => []
  end.

(** How many URLs a call reported as added through its return value. *)
Definition reported (c : call) (r : result) : Z :=
  match c, r with
  | (TryAdd _ _ | TryAddNowait _), RBool true => 1
  | AddBatch _, RCount n => n
  | _, _ => 0
  end.

Fixpoint reported_total (cs : list call) (rs : list result) : Z :=
  match cs, rs with
  | c :: cs', r :: rs' => reported c r + reported_total cs' rs'
  | _, _ => 0
  end.

(** *** The exits of try_add *)

(** The [return] statements of [try_add]: the duplicate exits of lines 144
    and 154, the exit of line 161 after an accepted push, and the exit of
    line 165 after a refused one. *)
Inductive exit : Type := ExitDuplicate | ExitAdded | ExitRefused.

Definition same_exit (e e' : exit) : bool :=
  match e, e' with
  | ExitDuplicate, ExitDuplicate | ExitAdded, ExitAdded
  | ExitRefused, ExitRefused => true
  | _, _ => false
  end.

(** The exit a block of [try_add] leaves through on [f], if it returns. *)
Definition section_exit (f : t) (p : point) (url : string)
    (timeout : milliseconds) : option exit :=
  match p, snd (try_add_section f p url timeout) with
  | _, inl _ => None
  | (AtProbe | AtInsert), inr _ => Some ExitDuplicate
  | AtPush, inr true => Some ExitAdded
  | AtPush, inr false => Some ExitRefused
  end.

(** The exit of [try_add] (called directly, through [try_add_nowait] or
    from the loop of [add_batch]) that the next step of a thread takes. *)
Definition next_exit (f : t) (th : thread) : option exit :=
  match th with
  | Running (TryAdd url timeout) (InTryAdd p) => section_exit f p url timeout
  | Running (TryAddNowait url) (InTryAdd p) => section_exit f p url 0%Z
  | Running (AddBatch _) (InBatch p url _ _) => section_exit f p url 0%Z
  | _ => None
  end.

(** The exits of [try_add] taken along a schedule, in order. *)
Fixpoint exits (cfg : config) (schedule : list nat) : list exit :=
  match schedule with
  | [] => []
  | i :: rest =>
      match snd cfg !! i with
      | Some th => option_list (next_exit (fst cfg) th)
      | None => []
      end ++ exits (step_at cfg i) rest
  end.

(** How often an exit occurs in a list of exits. *)
Fixpoint tally (e : exit) (es : list exit) : nat :=
  match es with
  | [] => 0
  | e' :: es' => (if same_exit e e' then 1 else 0) + tally e es'
  end.

(** Threads that have returned, and threads standing at the push. *)
Definition returned (th : thread) : nat :=
  match th with Returned _ _ => 1 | Running _ _ => 0 end.

Definition at_push (th : thread) : nat :=
  match pushing th with Some _ => 1 | None => 0 end.

Definition returned_true (th : thread) : nat :=
  match th with Returned _ (RBool true) => 1 | _ => 0 end.

(** A thread that is making, or has made, the call [try_add url]. *)
Definition calls_try_add (url : string) (th : thread) : Prop :=
  (exists (timeout : milliseconds) (p : point),
      th = Running (TryAdd url timeout) (InTryAdd p))
  \/ (exists (timeout : milliseconds) (b : bool),
        th = Returned (TryAdd url timeout) (RBool b)).

(** The books of a race among calls of [try_add url] that started on
    [f0].  With [R] threads returned, [P] standing at the push and [Rt]
    returned with true: either nobody has inserted [url] yet and no counter
    has moved; or [url] was visited from the start and every returned call
    counted a duplicate; or one call has inserted [url], and every other
    call that returned counted a duplicate. *)
Definition race_account (url : string) (f0 : t) (cfg : config) : Prop :=
  let f := fst cfg in
  let R := sum_list_with returned (snd cfg) in
  let P := sum_list_with at_push (snd cfg) in
  let Rt := sum_list_with returned_true (snd cfg) in
  Forall (calls_try_add url) (snd cfg)
  /\ invalid_skipped_ f = invalid_skipped_ f0
  /\ (((url ∉ visited_ f0) /\ (url ∉ visited_ f) /\ R = 0 /\ P = 0
       /\ Rt = 0
       /\ duplicates_skipped_ f = duplicates_skipped_ f0
       /\ urls_added_ f = urls_added_ f0)
      \/ (url ∈ visited_ f0 /\ url ∈ visited_ f /\ P = 0 /\ Rt = 0
          /\ duplicates_skipped_ f
             = Nat.iter R size_incr (duplicates_skipped_ f0)
          /\ urls_added_ f = urls_added_ f0)
      \/ ((url ∉ visited_ f0) /\ url ∈ visited_ f /\ P + Rt <= 1
          /\ 1 <= R + P
          /\ duplicates_skipped_ f
             = Nat.iter (R + P - 1) size_incr (duplicates_skipped_ f0)
          /\ urls_added_ f = Nat.iter Rt size_incr (urls_added_ f0))).

End URLFrontier.

(** * Properties of the bounded queue *)

Section QueueFacts.
Context {T : Type}.
Implicit Types (q : BoundedQueue.t T) (o : BoundedQueue.op T).
Implicit Types (ops : list (BoundedQueue.op T)).

Lemma push_capacity q v timeout :
  BoundedQueue.capacity_ (fst (BoundedQueue.push q v timeout))
  = BoundedQueue.capacity_ q.
Proof.
  unfold BoundedQueue.push.
  destruct (BoundedQueue.shutdown_flag_ q); [done|].
  by destruct (_ <? _).
Qed.

Lemma exec_capacity q o :
  BoundedQueue.capacity_ (fst (BoundedQueue.exec q o))
  = BoundedQueue.capacity_ q.
Proof.
  destruct o as [v timeout|timeout|]; simpl.
  - pose proof (push_capacity q v timeout) as H.
    by destruct (BoundedQueue.push q v timeout).
  - unfold BoundedQueue.pop. by destruct (BoundedQueue.items_ q).
  - done.
Qed.

Lemma exec_within_capacity q o :
  length (BoundedQueue.items_ q) <= BoundedQueue.capacity_ q ->
  length (BoundedQueue.items_ (fst (BoundedQueue.exec q o)))
  <= BoundedQueue.capacity_ q.
Proof.
  intros Hle. destruct o as [v timeout|timeout|]; simpl.
  - unfold BoundedQueue.push.
    destruct (BoundedQueue.shutdown_flag_ q); [done|].
    destruct (Nat.ltb_spec (length (BoundedQueue.items_ q))
                (BoundedQueue.capacity_ q)) as [Hlt|Hge]; simpl; [|done].
    rewrite length_app. simpl. lia.
  - unfold BoundedQueue.pop.
    destruct (BoundedQueue.items_ q) as [|x rest] eqn:E; simpl.
    + rewrite E. simpl. lia.
    + simpl in Hle. lia.
  - done.
Qed.

Lemma run_cons q o ops :
  BoundedQueue.run q (o :: ops)
  = (fst (BoundedQueue.run (fst (BoundedQueue.exec q o)) ops),
     snd (BoundedQueue.exec q o)
     :: snd (BoundedQueue.run (fst (BoundedQueue.exec q o)) ops)).
Proof.
  simpl. destruct (BoundedQueue.exec q o) as [q1 e]. simpl.
  by destruct (BoundedQueue.run q1 ops).
Qed.

Lemma run_within_capacity ops : forall q,
  length (BoundedQueue.items_ q) <= BoundedQueue.capacity_ q ->
  length (BoundedQueue.items_ (fst (BoundedQueue.run q ops)))
  <= BoundedQueue.capacity_ q
  /\ BoundedQueue.capacity_ (fst (BoundedQueue.run q ops))
     = BoundedQueue.capacity_ q.
Proof.
  induction ops as [|o ops IH]; intros q Hle; [done|].
  rewrite run_cons. simpl.
  pose proof (exec_within_capacity q o Hle) as H1.
  pose proof (exec_capacity q o) as H2.
  rewrite <- H2 in H1. destruct (IH _ H1) as [IH1 IH2].
  split; congruence.
Qed.

(** C6.  A queue built with capacity [cap] never holds more than [cap]
    items (and never fewer than none): after every prefix of every
    history of pushes, pops and shutdowns, [0 <= len(items) <= cap], and
    [size()] reports that length. *)
Theorem capacity_invariant (cap : nat) ops (k : nat) :
  let q := fst (BoundedQueue.run (BoundedQueue.new cap) (take k ops)) in
  (0 <= Z.of_nat (length (BoundedQueue.items_ q)) <= Z.of_nat cap)%Z
  /\ (0 <= Z.of_nat (BoundedQueue.size q) <= Z.of_nat cap)%Z
  /\ BoundedQueue.capacity q = cap.
Proof.
  intros q.
  destruct (run_within_capacity (take k ops) (BoundedQueue.new cap))
    as [H1 H2]; [simpl; lia|].
  fold q in H1, H2. simpl in H1, H2.
  unfold BoundedQueue.size, BoundedQueue.capacity. lia.
Qed.

(** Everything that ever entered the queue is either handed out already,
    in the same order, or still waiting behind it. *)
Lemma run_conserves_order ops : forall q,
  BoundedQueue.items_ q ++ BoundedQueue.enqueued (snd (BoundedQueue.run q ops))
  = BoundedQueue.dequeued (snd (BoundedQueue.run q ops))
    ++ BoundedQueue.items_ (fst (BoundedQueue.run q ops)).
Proof.
  induction ops as [|o ops IH]; intros q.
  { simpl. by rewrite app_nil_r. }
  rewrite run_cons. simpl.
  specialize (IH (fst (BoundedQueue.exec q o))).
  destruct o as [v timeout|timeout|]; simpl in *.
  - unfold BoundedQueue.push in *.
    destruct (BoundedQueue.shutdown_flag_ q); simpl in *; [done|].
    destruct (_ <? _); simpl in *; [|done].
    rewrite <- IH. by rewrite <- app_assoc.
  - unfold BoundedQueue.pop in *.
    destruct (BoundedQueue.items_ q) as [|x rest] eqn:E; simpl in *.
    + by rewrite E in IH.
    + by rewrite <- IH.
  - done.
Qed.

(** C7.  FIFO law.  In every history of a queue the values handed out by
    [pop] are, in order, an initial segment of the values accepted by
    [push]; so when [A] is the [i]-th value enqueued and [B] the [j]-th
    with [i < j], and [B] has been dequeued, then [A] was dequeued too, as
    the [i]-th pop result, before [B], which is the [j]-th. *)
Theorem fifo_law (cap : nat) ops :
  let tr := snd (BoundedQueue.run (BoundedQueue.new cap) ops) in
  BoundedQueue.dequeued tr `prefix_of` BoundedQueue.enqueued tr
  /\ forall (i j : nat) (A B : T),
       BoundedQueue.enqueued tr !! i = Some A ->
       BoundedQueue.enqueued tr !! j = Some B ->
       i < j ->
       j < length (BoundedQueue.dequeued tr) ->
       BoundedQueue.dequeued tr !! i = Some A
       /\ BoundedQueue.dequeued tr !! j = Some B.
Proof.
  intros tr.
  pose proof (run_conserves_order ops (BoundedQueue.new cap)) as Heq.
  fold tr in Heq. simpl in Heq.
  split; [by eexists|].
  intros i j A B HA HB Hij Hj.
  rewrite Heq in HA, HB.
  rewrite lookup_app_l in HA by lia.
  by rewrite lookup_app_l in HB by lia.
Qed.

(** Once the flag is set every push is refused and the pops hand out what
    was buffered, then nothing. *)
Lemma run_after_shutdown ops : forall q,
  BoundedQueue.shutdown_flag_ q = true ->
  let tr := snd (BoundedQueue.run q ops) in
  let n := length (BoundedQueue.pop_results tr) in
  BoundedQueue.pop_results tr
  = map Some (take n (BoundedQueue.items_ q))
    ++ replicate (n - length (BoundedQueue.items_ q)) None
  /\ Forall (fun ok => ok = false) (BoundedQueue.push_results tr).
Proof.
  induction ops as [|o ops IH]; intros q Hq; [by split|].
  rewrite run_cons. cbn zeta. cbn [snd].
  destruct o as [v timeout|timeout|].
  - cbn [BoundedQueue.exec]. unfold BoundedQueue.push. rewrite Hq.
    cbn [fst snd BoundedQueue.pop_results BoundedQueue.push_results].
    destruct (IH q Hq) as [IH1 IH2]. split; [done|].
    by constructor.
  - cbn [BoundedQueue.exec]. unfold BoundedQueue.pop.
    destruct (BoundedQueue.items_ q) as [|x rest] eqn:E.
    + cbn [fst snd BoundedQueue.pop_results BoundedQueue.push_results].
      destruct (IH q Hq) as [IH1 IH2]. split; [|done].
      rewrite E in IH1. rewrite IH1 at 1.
      rewrite take_nil. cbn [length map app].
      rewrite take_nil. cbn [map app]. rewrite !Nat.sub_0_r. done.
    + cbn [fst snd BoundedQueue.pop_results BoundedQueue.push_results].
      destruct (IH {| BoundedQueue.capacity_ := BoundedQueue.capacity_ q;
                      BoundedQueue.items_ := rest;
                      BoundedQueue.shutdown_flag_ :=
                        BoundedQueue.shutdown_flag_ q |} Hq) as [IH1 IH2].
      split; [|done].
      cbn [BoundedQueue.items_] in IH1.
      rewrite IH1 at 1. by cbn [length firstn take map app Nat.sub].
  - cbn [BoundedQueue.exec fst snd BoundedQueue.pop_results
           BoundedQueue.push_results].
    destruct (IH (BoundedQueue.shutdown q) eq_refl) as [IH1 IH2].
    by split.
Qed.

(** C8.  Drain after shutdown.  When [shutdown()] is signaled on a queue
    holding [K] items, the items stay buffered, and in every history that
    follows (pops with any timeouts, interleaved with pushes and further
    shutdowns) the first [K] pops return the buffered items in order and
    every later pop returns the empty optional. *)
Theorem drain_after_shutdown q ops :
  let K := length (BoundedQueue.items_ q) in
  let tr := snd (BoundedQueue.run (BoundedQueue.shutdown q) ops) in
  let n := length (BoundedQueue.pop_results tr) in
  BoundedQueue.items_ (BoundedQueue.shutdown q) = BoundedQueue.items_ q
  /\ BoundedQueue.pop_results tr
     = map Some (take n (BoundedQueue.items_ q)) ++ replicate (n - K) None
  /\ (forall i : nat, i < n -> i < K ->
        BoundedQueue.pop_results tr !! i
        = Some (BoundedQueue.items_ q !! i))
  /\ (forall i : nat, i < n -> K <= i ->
        BoundedQueue.pop_results tr !! i = Some None).
Proof.
  intros K tr n.
  destruct (run_after_shutdown ops (BoundedQueue.shutdown q) eq_refl)
    as [Hres _].
  fold tr in Hres. fold n in Hres. cbn [BoundedQueue.shutdown
    BoundedQueue.items_] in Hres. fold K in Hres.
  split; [done|]. split; [done|].
  assert (Hlen : length (map Some (take n (BoundedQueue.items_ q)))
                 = n `min` K).
  { rewrite length_map, length_take. done. }
  split.
  - intros i Hi HK. rewrite Hres.
    rewrite lookup_app_l by lia.
    rewrite list_lookup_fmap, lookup_take_lt by lia.
    destruct (lookup_lt_is_Some_2 (BoundedQueue.items_ q) i HK) as [x ->].
    done.
  - intros i Hi HK. rewrite Hres.
    rewrite lookup_app_r by lia.
    rewrite Hlen. apply lookup_replicate_2. lia.
Qed.

End QueueFacts.

(** * Properties of the URL frontier *)

Section FrontierFacts.
Import URLFrontier.
Implicit Types (f : URLFrontier.t) (url : string) (timeout : milliseconds).

Lemma size_incr_no_wrap (x : Z) :
  (0 <= x < SIZE_MODULUS - 1)%Z -> size_incr x = (x + 1)%Z.
Proof. intros H. unfold size_incr. apply Z.mod_small. lia. Qed.

Lemma set_visited_same f : set_visited f (visited_ f) = f.
Proof. by destruct f. Qed.

Lemma set_queue_same f : set_queue f (queue_ f) = f.
Proof. by destruct f. Qed.

(** The three blocks of [try_add], by cases on what they find. *)
Lemma probe_visited_eq f url :
  probe_visited f url
  = if decide (url ∈ visited_ f) then (count_duplicate f, Some false)
    else (f, None).
Proof. unfold probe_visited, set_count. by case_decide. Qed.

Lemma insert_visited_eq f url :
  insert_visited f url
  = if decide (url ∈ visited_ f) then (count_duplicate f, Some false)
    else (set_visited f ({[url]} ∪ visited_ f), None).
Proof.
  unfold insert_visited, set_insert. case_decide; simpl; [|done].
  by rewrite set_visited_same.
Qed.

Lemma enqueue_eq f url timeout :
  enqueue f url timeout
  = if snd (BoundedQueue.push (queue_ f) url timeout)
    then (count_added
            (set_queue f (fst (BoundedQueue.push (queue_ f) url timeout))),
          true)
    else (f, false).
Proof.
  unfold enqueue, BoundedQueue.push.
  destruct (BoundedQueue.shutdown_flag_ (queue_ f)); simpl.
  { by rewrite set_queue_same. }
  destruct (_ <? _); simpl; [done|]. by rewrite set_queue_same.
Qed.

Lemma try_add_eq f url timeout :
  try_add f url timeout
  = if decide (url ∈ visited_ f) then (count_duplicate f, false)
    else enqueue (set_visited f ({[url]} ∪ visited_ f)) url timeout.
Proof.
  unfold try_add. rewrite probe_visited_eq.
  case_decide as Hin; [done|].
  rewrite insert_visited_eq. by rewrite decide_False.
Qed.

Lemma try_add_visited f url timeout :
  visited_ (fst (try_add f url timeout)) = {[url]} ∪ visited_ f.
Proof.
  rewrite try_add_eq. case_decide as Hin; simpl.
  { symmetry. apply subseteq_union_1_L. by apply singleton_subseteq_l. }
  rewrite enqueue_eq. by destruct (snd _).
Qed.

Lemma try_add_invalid_skipped f url timeout :
  invalid_skipped_ (fst (try_add f url timeout)) = invalid_skipped_ f.
Proof.
  rewrite try_add_eq. case_decide; [done|].
  rewrite enqueue_eq. by destruct (snd _).
Qed.

Lemma try_add_is_shutdown f url timeout :
  is_shutdown (fst (try_add f url timeout)) = is_shutdown f.
Proof.
  rewrite try_add_eq. case_decide; [done|].
  rewrite enqueue_eq. unfold is_shutdown, BoundedQueue.push. simpl.
  destruct (BoundedQueue.shutdown_flag_ (queue_ f)) eqn:E; simpl; [done|].
  destruct (_ <? _); simpl; done.
Qed.

Lemma add_batch_from_frame urls : forall f count,
  visited_ f ⊆ visited_ (fst (add_batch_from f urls count))
  /\ invalid_skipped_ (fst (add_batch_from f urls count)) = invalid_skipped_ f
  /\ is_shutdown (fst (add_batch_from f urls count)) = is_shutdown f.
Proof.
  induction urls as [|url rest IH]; intros f count; [done|].
  simpl. unfold try_add_nowait.
  pose proof (try_add_visited f url 0) as Hv.
  pose proof (try_add_invalid_skipped f url 0) as Hi.
  pose proof (try_add_is_shutdown f url 0) as Hs.
  destruct (try_add f url 0) as [f1 added]. simpl in *.
  destruct (IH f1 (if added then size_incr count else count))
    as (IH1 & IH2 & IH3).
  split; [|split; congruence].
  etrans; [|exact IH1]. rewrite Hv. apply union_subseteq_r.
Qed.

(** What a single call may change. *)
Lemma exec_frame f (c : call) :
  visited_ f ⊆ visited_ (fst (exec f c))
  /\ invalid_skipped_ (fst (exec f c)) = invalid_skipped_ f
  /\ (is_shutdown f = true -> is_shutdown (fst (exec f c)) = true).
Proof.
  destruct c as [url timeout|url|urls|timeout|url|url|]; simpl.
  - pose proof (try_add_visited f url timeout) as Hv.
    pose proof (try_add_invalid_skipped f url timeout) as Hi.
    pose proof (try_add_is_shutdown f url timeout) as Hs.
    destruct (try_add f url timeout). simpl in *.
    split; [rewrite Hv; apply union_subseteq_r|]. split; congruence.
  - unfold try_add_nowait.
    pose proof (try_add_visited f url 0) as Hv.
    pose proof (try_add_invalid_skipped f url 0) as Hi.
    pose proof (try_add_is_shutdown f url 0) as Hs.
    destruct (try_add f url 0). simpl in *.
    split; [rewrite Hv; apply union_subseteq_r|]. split; congruence.
  - unfold add_batch.
    destruct (add_batch_from_frame urls f 0) as (H1 & H2 & H3).
    destruct (add_batch_from f urls 0). simpl in *.
    split; [done|]. split; congruence.
  - unfold pop, BoundedQueue.pop.
    destruct (BoundedQueue.items_ (queue_ f)) eqn:E; simpl; done.
  - done.
  - unfold mark_visited, set_insert. case_decide; simpl; split_and!; try done.
    apply union_subseteq_r.
  - done.
Qed.

Lemma frontier_run_cons f (c : call) cs :
  run f (c :: cs)
  = (fst (run (fst (exec f c)) cs),
     snd (exec f c) :: snd (run (fst (exec f c)) cs)).
Proof.
  simpl. destruct (exec f c) as [f1 r]. simpl. by destruct (run f1 cs).
Qed.

Lemma run_frame cs : forall f,
  visited_ f ⊆ visited_ (fst (run f cs))
  /\ invalid_skipped_ (fst (run f cs)) = invalid_skipped_ f
  /\ (is_shutdown f = true -> is_shutdown (fst (run f cs)) = true).
Proof.
  induction cs as [|c cs IH]; intros f; [done|].
  rewrite frontier_run_cons. simpl.
  destruct (exec_frame f c) as (H1 & H2 & H3).
  destruct (IH (fst (exec f c))) as (IH1 & IH2 & IH3).
  split; [by etrans|]. split; [congruence|]. auto.
Qed.

(** What one call of [try_add] does to the three counters, by outcome. *)
Lemma try_add_outcome f url timeout :
  let f' := fst (try_add f url timeout) in
  let r := snd (try_add f url timeout) in
  (url ∈ visited_ f /\ r = false
   /\ stats f' = {| urls_added := urls_added_ f;
                    duplicates_skipped := size_incr (duplicates_skipped_ f);
                    invalid_skipped := invalid_skipped_ f |})
  \/ ((url ∉ visited_ f) /\ r = true
      /\ snd (BoundedQueue.push (queue_ f) url timeout) = true
      /\ stats f' = {| urls_added := size_incr (urls_added_ f);
                       duplicates_skipped := duplicates_skipped_ f;
                       invalid_skipped := invalid_skipped_ f |})
  \/ ((url ∉ visited_ f) /\ r = false
      /\ snd (BoundedQueue.push (queue_ f) url timeout) = false
      /\ stats f' = stats f).
Proof.
  intros f' r. subst f' r. rewrite try_add_eq.
  case_decide as Hin; [by left|right].
  rewrite enqueue_eq. simpl.
  destruct (snd (BoundedQueue.push (queue_ f) url timeout)); [by left|by right].
Qed.

(** The calls of [try_add url] that follow one another: once [url] is
    visited every call is a duplicate. *)
Lemma try_add_log_visited timeouts : forall f url (i : nat) pre r post,
  url ∈ visited_ f ->
  try_add_log f url timeouts !! i = Some (pre, r, post) ->
  url ∈ visited_ pre /\ r = false.
Proof.
  induction timeouts as [|timeout rest IH]; intros f url i pre r post Hin Hi;
    [done|].
  simpl in Hi.
  pose proof (try_add_visited f url timeout) as Hv.
  assert (Hr : snd (try_add f url timeout) = false).
  { rewrite try_add_eq. by rewrite decide_True. }
  destruct (try_add f url timeout) as [f' r'] eqn:E. simpl in *.
  destruct i as [|i]; simpl in Hi.
  - by simplify_eq.
  - eapply IH; [|done]. rewrite Hv.
    apply elem_of_union_r. done.
Qed.

Lemma try_add_log_entry timeouts : forall f url (i : nat) pre r post,
  try_add_log f url timeouts !! i = Some (pre, r, post) ->
  exists timeout, timeouts !! i = Some timeout
    /\ try_add pre url timeout = (post, r)
    /\ (i = 0 -> pre = f) /\ (0 < i -> url ∈ visited_ pre).
Proof.
  induction timeouts as [|timeout rest IH]; intros f url i pre r post Hi;
    [done|].
  simpl in Hi.
  pose proof (try_add_visited f url timeout) as Hv.
  destruct (try_add f url timeout) as [f' r'] eqn:E. simpl in *.
  destruct i as [|i]; simpl in Hi.
  - simplify_eq. exists timeout. split; [done|]. split; [done|].
    split; [done|lia].
  - destruct (IH _ _ _ _ _ _ Hi) as (timeout' & Hlook & Ht & _ & _).
    exists timeout'. split; [done|]. split; [done|]. split; [lia|]. intros _.
    eapply (try_add_log_visited rest f'); [|done].
    rewrite Hv. apply elem_of_union_l. by apply elem_of_singleton.
Qed.

Lemma shutdown_shutdown f : shutdown (shutdown f) = shutdown f.
Proof. done. Qed.

Lemma iter_shutdown (N : nat) f : Nat.iter (S N) shutdown f = shutdown f.
Proof.
  induction N as [|N IH]; [done|].
  change (Nat.iter (S (S N)) shutdown f)
    with (shutdown (Nat.iter (S N) shutdown f)).
  by rewrite IH.
Qed.

End FrontierFacts.

(** * Threads racing on one frontier *)

Section Interleavings.
Import URLFrontier.
Implicit Types (f : URLFrontier.t) (url u : string) (timeout : milliseconds).
Implicit Types (th : thread) (cfg : config) (schedule : list nat).

(** What one block of [try_add] may change. *)
Lemma try_add_section_frame f (p : point) url timeout f' (o : point + bool) :
  try_add_section f p url timeout = (f', o) ->
  visited_ f ⊆ visited_ f'
  /\ invalid_skipped_ f' = invalid_skipped_ f
  /\ (is_shutdown f = true -> is_shutdown f' = true)
  /\ (forall u, u ∈ items f' -> u ∈ items f \/ (p = AtPush /\ u = url))
  /\ (forall p', o = inl p' ->
        p' <> AtProbe /\ (p' = AtPush -> (url ∉ visited_ f) /\ url ∈ visited_ f'))
  /\ (o = inr true -> p = AtPush).
Proof.
  destruct p; simpl.
  - rewrite probe_visited_eq. case_decide as Hin; intros [= <- <-]; simpl.
    all: split_and!; try done; try (intros; by left).
    all: by intros p' [= <-].
  - rewrite insert_visited_eq. case_decide as Hin; intros [= <- <-]; simpl.
    + split_and!; try done; try (intros; by left).
    + split_and!; try done; try (intros; by left).
      * apply union_subseteq_r.
      * intros p' [= <-]. split; [done|]. intros _. split; [done|].
        apply elem_of_union_l. by apply elem_of_singleton.
  - rewrite enqueue_eq.
    unfold BoundedQueue.push, is_shutdown, BoundedQueue.is_shutdown, items.
    destruct (BoundedQueue.shutdown_flag_ (queue_ f)) eqn:Hs; simpl.
    { intros [= <- <-].
      split_and!; try done; try (intros; by left). }
    destruct (_ <? _); simpl; intros [= <- <-]; simpl.
    + split_and!; try done.
      intros u [Hu|Hu]%elem_of_app; [by left|right].
      split; [done|]. by apply list_elem_of_singleton in Hu.
    + split_and!; try done; try (intros; by left).
Qed.

Lemma pushing_try_add url timeout (p : point) u :
  pushing (Running (TryAdd url timeout) (InTryAdd p)) = Some u
  <-> p = AtPush /\ u = url.
Proof. destruct p; simpl; split; (intros [= <-] || intros [[=] ->]); done. Qed.

Lemma pushing_try_add_nowait url (p : point) u :
  pushing (Running (TryAddNowait url) (InTryAdd p)) = Some u
  <-> p = AtPush /\ u = url.
Proof. destruct p; simpl; split; (intros [= <-] || intros [[=] ->]); done. Qed.

Lemma pushing_batch urls (p : point) url rest (count : Z) u :
  pushing (Running (AddBatch urls) (InBatch p url rest count)) = Some u
  <-> p = AtPush /\ u = url.
Proof. destruct p; simpl; split; (intros [= <-] || intros [[=] ->]); done. Qed.

Lemma pushing_winner u th : pushing th = Some u -> winner u th.
Proof. intros H. by left. Qed.

Lemma step_effect_stuck f th :
  pushing th = None -> step_effect f th f th.
Proof.
  intros Hp. unfold step_effect. rewrite Hp.
  split_and!; try done; intros; by left.
Qed.

(** The cases of a thread inside [try_add]: [Hsec] is the block it runs,
    and the goal is the effect of the step that results. *)
Ltac section_case Hsec :=
  apply try_add_section_frame in Hsec
    as (Hv & Hi & Hs & Hitems & Ho & Htrue);
  unfold step_effect; split_and!;
  [ exact Hv | exact Hi | exact Hs
  | intros u Hu; destruct (Hitems u Hu) as [?|[-> ->]]; [by left|by right]
  | try (intros u Hu; simpl in Hu; simplify_eq;
         by apply (Ho AtPush eq_refl))
  | try (intros u [Hu|Hw];
         [ simpl in Hu; simplify_eq; right; by apply (Ho AtPush eq_refl)
         | by simpl in Hw ]) ].

Lemma step_frame f th :
  step_effect f th (fst (step f th)) (snd (step f th)).
Proof.
  destruct th as [c l|c r]; [|by apply step_effect_stuck].
  destruct c as [url timeout|url|urls|timeout|url|url|];
    destruct l as [|p|p burl rest count];
    try (by apply step_effect_stuck); cbn [step].
  - (* try_add *)
    destruct (try_add_section f p url timeout) as [f' [p'|b]] eqn:Hsec;
      cbn [fst snd].
    + destruct p'; section_case Hsec.
    + section_case Hsec.
      intros u [[=]|Hw]. destruct b; [|done]. simpl in Hw. subst u.
      left. left. by rewrite (Htrue eq_refl).
  - (* try_add_nowait *)
    destruct (try_add_section f p url 0) as [f' [p'|b]] eqn:Hsec;
      cbn [fst snd].
    + destruct p'; section_case Hsec.
    + section_case Hsec.
      intros u [[=]|Hw]. destruct b; [|done]. simpl in Hw. subst u.
      left. left. by rewrite (Htrue eq_refl).
  - (* add_batch *)
    destruct (try_add_section f p burl 0) as [f' [p'|b]] eqn:Hsec;
      cbn [fst snd].
    + destruct p'; section_case Hsec.
    + destruct rest as [|next rest']; cbn [fst snd]; section_case Hsec.
      all: by intros u [Hu|Hw]; [simpl in Hu|simpl in Hw].
  - (* pop *)
    destruct (exec_frame f (Pop timeout)) as (Hv & Hi & Hs).
    simpl in *. unfold pop, BoundedQueue.pop, items in *.
    destruct (BoundedQueue.items_ (queue_ f)) as [|x xs] eqn:E;
      cbn [fst snd] in *; unfold step_effect, items; simpl;
      split_and!; try done.
    * intros u Hu. by left.
    * by intros u [Hu|Hw]; [simpl in Hu|simpl in Hw].
    * intros u Hu. left. rewrite E. apply elem_of_cons. by right.
    * by intros u [Hu|Hw]; [simpl in Hu|simpl in Hw].
  - (* is_visited *)
    unfold step_effect; simpl; split_and!; try done.
    + intros; by left.
    + intros u [[=]|Hw]. simpl in Hw. by destruct (is_visited f url).
  - (* mark_visited *)
    destruct (exec_frame f (MarkVisited url)) as (Hv & Hi & Hs).
    unfold step_effect; simpl in *; split_and!; try done.
    + intros; by left.
    + by intros u [Hu|Hw]; [simpl in Hu|simpl in Hw].
  - (* shutdown *)
    unfold step_effect; simpl; split_and!; try done.
    + intros; by left.
    + by intros u [Hu|Hw]; [simpl in Hu|simpl in Hw].
Qed.

Lemma step_at_cases cfg (i : nat) :
  (snd cfg !! i = None /\ step_at cfg i = cfg)
  \/ exists th, snd cfg !! i = Some th
       /\ step_at cfg i
          = (fst (step (fst cfg) th),
             <[i := snd (step (fst cfg) th)]> (snd cfg)).
Proof.
  unfold step_at. destruct (snd cfg !! i) as [th|]; [right|by left].
  exists th. split; [done|]. by destruct (step (fst cfg) th).
Qed.

Lemma run_schedule_snoc cfg schedule (i : nat) :
  run_schedule cfg (schedule ++ [i]) = step_at (run_schedule cfg schedule) i.
Proof. unfold run_schedule. by rewrite fold_left_app. Qed.

Lemma run_schedule_app cfg schedule later :
  run_schedule cfg (schedule ++ later)
  = run_schedule (run_schedule cfg schedule) later.
Proof. unfold run_schedule. by rewrite fold_left_app. Qed.

(** A property kept by every step is kept by every schedule. *)
Lemma run_schedule_ind (P : config -> Prop) :
  (forall cfg (i : nat), P cfg -> P (step_at cfg i)) ->
  forall schedule cfg, P cfg -> P (run_schedule cfg schedule).
Proof.
  intros Hstep schedule.
  induction schedule as [|i schedule IH]; intros cfg HP; [done|].
  simpl. apply IH. by apply Hstep.
Qed.

Lemma step_at_frame cfg (i : nat) :
  visited_ (fst cfg) ⊆ visited_ (fst (step_at cfg i))
  /\ invalid_skipped_ (fst (step_at cfg i)) = invalid_skipped_ (fst cfg)
  /\ (is_shutdown (fst cfg) = true ->
      is_shutdown (fst (step_at cfg i)) = true).
Proof.
  destruct (step_at_cases cfg i) as [[_ ->]|(th & _ & ->)]; [done|].
  destruct (step_frame (fst cfg) th) as (Hv & Hi & Hs & _).
  by split_and!.
Qed.

Lemma run_schedule_frame schedule : forall cfg,
  visited_ (fst cfg) ⊆ visited_ (fst (run_schedule cfg schedule))
  /\ invalid_skipped_ (fst (run_schedule cfg schedule))
     = invalid_skipped_ (fst cfg)
  /\ (is_shutdown (fst cfg) = true ->
      is_shutdown (fst (run_schedule cfg schedule)) = true).
Proof.
  induction schedule as [|i schedule IH]; intros cfg; [done|].
  simpl. destruct (IH (step_at cfg i)) as (IH1 & IH2 & IH3).
  destruct (step_at_frame cfg i) as (H1 & H2 & H3).
  split_and!; [by etrans|congruence|auto].
Qed.

Lemma step_at_queued_is_visited cfg (i : nat) :
  queued_is_visited cfg -> queued_is_visited (step_at cfg i).
Proof.
  intros [Hq Hp].
  destruct (step_at_cases cfg i) as [[_ ->]|(th & Hth & ->)]; [done|].
  destruct (step_frame (fst cfg) th) as (Hv & _ & _ & Hitems & Hpush & _).
  split; cbn [fst snd].
  - intros u Hu. destruct (Hitems u Hu) as [Hold|Hnew].
    + by apply Hv, Hq.
    + eapply Hv, Hp; done.
  - intros j th' u Hj Hu.
    destruct (decide (i = j)) as [<-|Hne].
    + rewrite list_lookup_insert_eq in Hj
        by (by eapply lookup_lt_Some).
      simplify_eq. by apply Hpush.
    + rewrite list_lookup_insert_ne in Hj by done.
      eapply Hv, Hp; done.
Qed.

Lemma enter_not_winner (c : call) u : ~ winner u (enter c).
Proof.
  destruct c as [url timeout|url|[|url rest]|timeout|url|url|];
    by intros [Hu|Hw]; [simpl in Hu|simpl in Hw].
Qed.

Lemma spawn_lookup f (cs : list call) (i : nat) th :
  snd (spawn f cs) !! i = Some th -> exists c, cs !! i = Some c /\ th = enter c.
Proof.
  unfold spawn. simpl. rewrite list_lookup_fmap.
  destruct (cs !! i) as [c|]; simpl; [|done].
  intros [= <-]. by exists c.
Qed.

Lemma spawn_queued_is_visited f (cs : list call) :
  (forall u, u ∈ items f -> u ∈ visited_ f) ->
  queued_is_visited (spawn f cs).
Proof.
  intros Hf. split; [done|].
  intros i th u (c & _ & ->)%spawn_lookup Hu.
  exfalso. eapply enter_not_winner. by left.
Qed.

Lemma step_at_one_winner url cfg (i : nat) :
  one_winner url cfg -> one_winner url (step_at cfg i).
Proof.
  intros [Hin Huniq].
  destruct (step_at_cases cfg i) as [[_ ->]|(th & Hth & ->)]; [done|].
  destruct (step_frame (fst cfg) th) as (Hv & _ & _ & _ & _ & Hwin).
  assert (Hlen : i < length (snd cfg)) by (by eapply lookup_lt_Some).
  assert (Hother : forall (j : nat) thj,
    i <> j -> snd cfg !! j = Some thj -> winner url thj ->
    winner url (snd (step (fst cfg) th)) -> False).
  { intros j thj Hne Hj Hwj Hw'.
    destruct (Hwin url Hw') as [Hw|[Hnew _]].
    - by apply Hne, (Huniq i j th thj).
    - by apply Hnew, (Hin j thj). }
  split; cbn [fst snd].
  - intros j thj Hj Hw.
    destruct (decide (i = j)) as [<-|Hne].
    + rewrite list_lookup_insert_eq in Hj by done. simplify_eq.
      destruct (Hwin url Hw) as [Hold|[_ Hnow]]; [|done].
      by eapply Hv, Hin.
    + rewrite list_lookup_insert_ne in Hj by done.
      by eapply Hv, Hin.
  - intros j k thj thk Hj Hk Hwj Hwk.
    destruct (decide (i = j)) as [<-|Hnej];
      destruct (decide (i = k)) as [<-|Hnek]; try done.
    + rewrite list_lookup_insert_eq in Hj by done.
      rewrite list_lookup_insert_ne in Hk by done. simplify_eq.
      exfalso. by eapply (Hother k thk).
    + rewrite list_lookup_insert_ne in Hj by done.
      rewrite list_lookup_insert_eq in Hk by done. simplify_eq.
      exfalso. by eapply (Hother j thj).
    + rewrite list_lookup_insert_ne in Hj by done.
      rewrite list_lookup_insert_ne in Hk by done.
      by eapply Huniq.
Qed.

Lemma spawn_one_winner url f (cs : list call) : one_winner url (spawn f cs).
Proof.
  split.
  - intros i th (c & _ & ->)%spawn_lookup Hw.
    by apply enter_not_winner in Hw.
  - intros i j thi thj (c & _ & ->)%spawn_lookup _ Hw.
    by apply enter_not_winner in Hw.
Qed.

(** The dedup law under concurrency: whatever the threads and the
    schedule, at most one [try_add] (or [try_add_nowait]) of a given URL
    gets past the insertion into the visited set, so at most one returns
    true. *)
Theorem try_add_race f (cs : list call) schedule url :
  let cfg := run_schedule (spawn f cs) schedule in
  (forall (i j : nat) thi thj,
      snd cfg !! i = Some thi -> snd cfg !! j = Some thj ->
      winner url thi -> winner url thj -> i = j)
  /\ (forall (i j : nat) (ti tj : milliseconds),
        snd cfg !! i = Some (Returned (TryAdd url ti) (RBool true)) ->
        snd cfg !! j = Some (Returned (TryAdd url tj) (RBool true)) ->
        i = j).
Proof.
  intros cfg.
  assert (Hinv : one_winner url cfg).
  { apply (run_schedule_ind (one_winner url));
      [apply step_at_one_winner|apply spawn_one_winner]. }
  destruct Hinv as [_ Huniq]. split; [exact Huniq|].
  intros i j ti tj Hi Hj. eapply Huniq; [done|done| |]; by right.
Qed.

(** ** Calls made one after the other are one of the schedules *)

Lemma run_alone_returned (n : nat) f (c : call) (r : result) :
  run_alone n f (Returned c r) = (f, Returned c r).
Proof. induction n as [|n IH]; [done|]. simpl. exact IH. Qed.

Lemma run_alone_add (n m : nat) : forall f th,
  run_alone (n + m) f th
  = run_alone m (fst (run_alone n f th)) (snd (run_alone n f th)).
Proof.
  induction n as [|n IH]; intros f th; [done|].
  simpl. destruct (step f th) as [f' th']. apply IH.
Qed.

Lemma run_alone_finished (n m : nat) f th f' (c : call) (r : result) :
  run_alone n f th = (f', Returned c r) -> n <= m ->
  run_alone m f th = (f', Returned c r).
Proof.
  intros Hn Hle. replace m with (n + (m - n)) by lia.
  rewrite run_alone_add, Hn. apply run_alone_returned.
Qed.

Lemma try_add_alone f url timeout :
  run_alone 3 f (Running (TryAdd url timeout) (InTryAdd AtProbe))
  = (fst (try_add f url timeout),
     Returned (TryAdd url timeout) (RBool (snd (try_add f url timeout)))).
Proof.
  unfold try_add. cbn [run_alone step try_add_section].
  rewrite probe_visited_eq. case_decide as Hin; [done|].
  cbn [run_alone step try_add_section].
  rewrite insert_visited_eq, decide_False by done.
  cbn [run_alone step try_add_section].
  by destruct (enqueue _ url timeout).
Qed.

Lemma try_add_nowait_alone f url :
  run_alone 3 f (Running (TryAddNowait url) (InTryAdd AtProbe))
  = (fst (try_add_nowait f url),
     Returned (TryAddNowait url) (RBool (snd (try_add_nowait f url)))).
Proof.
  unfold try_add_nowait, try_add. cbn [run_alone step try_add_section].
  rewrite probe_visited_eq. case_decide as Hin; [done|].
  cbn [run_alone step try_add_section].
  rewrite insert_visited_eq, decide_False by done.
  cbn [run_alone step try_add_section].
  by destruct (enqueue _ url 0).
Qed.

(** One round of the loop of [add_batch]. *)
Lemma batch_round_alone f (us : list string) url rest (count : Z) :
  exists n : nat, n <= 3
    /\ run_alone n f (Running (AddBatch us) (InBatch AtProbe url rest count))
       = (fst (try_add_nowait f url),
          let count' := if snd (try_add_nowait f url)
                        then size_incr count else count in
          match rest with
          | [] => Returned (AddBatch us) (RCount count')
          | next :: rest' =>
              Running (AddBatch us) (InBatch AtProbe next rest' count')
          end).
Proof.
  unfold try_add_nowait, try_add. rewrite probe_visited_eq.
  destruct (decide (url ∈ visited_ f)) as [Hin|Hnew].
  - exists 1. split; [lia|]. cbn [run_alone step try_add_section].
    rewrite probe_visited_eq, decide_True by done.
    by destruct rest.
  - exists 3. split; [lia|]. cbn [run_alone step try_add_section].
    rewrite probe_visited_eq, decide_False by done.
    cbn [run_alone step try_add_section].
    rewrite insert_visited_eq, decide_False by done.
    cbn [run_alone step try_add_section].
    destruct (enqueue _ url 0) as [f' b]. by destruct rest.
Qed.

Lemma add_batch_alone (us : list string) rest : forall f url (count : Z),
  exists n : nat, n <= 3 * S (length rest)
    /\ run_alone n f (Running (AddBatch us) (InBatch AtProbe url rest count))
       = (fst (add_batch_from f (url :: rest) count),
          Returned (AddBatch us)
            (RCount (snd (add_batch_from f (url :: rest) count)))).
Proof.
  induction rest as [|next rest IH]; intros f url count.
  - destruct (batch_round_alone f us url [] count) as (n & Hn & Hrun).
    exists n. split; [simpl; lia|]. rewrite Hrun. simpl.
    by destruct (try_add_nowait f url).
  - destruct (batch_round_alone f us url (next :: rest) count)
      as (n & Hn & Hrun).
    cbn zeta in Hrun.
    destruct (IH (fst (try_add_nowait f url)) next
                (if snd (try_add_nowait f url) then size_incr count
                 else count)) as (m & Hm & Hrest).
    exists (n + m). split; [simpl in *; lia|].
    rewrite run_alone_add, Hrun. cbn [fst snd]. rewrite Hrest.
    change (add_batch_from f (url :: next :: rest) count)
      with (let '(f1, added) := try_add_nowait f url in
            add_batch_from f1 (next :: rest)
              (if added then size_incr count else count)).
    by destruct (try_add_nowait f url).
Qed.

(** A call made by a thread that is left alone does what the call does. *)
Lemma exec_alone f (c : call) :
  run_alone (fuel c) f (enter c) = (fst (exec f c), Returned c (snd (exec f c))).
Proof.
  destruct c as [url timeout|url|urls|timeout|url|url|].
  - cbn [fuel enter exec]. rewrite try_add_alone.
    by destruct (try_add f url timeout).
  - cbn [fuel enter exec]. rewrite try_add_nowait_alone.
    by destruct (try_add_nowait f url).
  - destruct urls as [|url rest]; [done|].
    destruct (add_batch_alone (url :: rest) rest f url 0) as (n & Hn & Hrun).
    cbn [fuel enter exec]. unfold add_batch.
    rewrite (run_alone_finished _ (3 * length (url :: rest)) _ _ _ _ _ Hrun)
      by (simpl in *; lia).
    by destruct (add_batch_from f (url :: rest) 0).
  - cbn [fuel enter exec run_alone step]. by destruct (pop f timeout).
  - done.
  - done.
  - done.
Qed.

Lemma run_schedule_alone (n : nat) (pre post : list thread) : forall f th,
  run_schedule (f, pre ++ th :: post) (replicate n (length pre))
  = (fst (run_alone n f th), pre ++ snd (run_alone n f th) :: post).
Proof.
  induction n as [|n IH]; intros f th; [done|].
  cbn [replicate run_alone]. unfold run_schedule in *. cbn [fold_left].
  unfold step_at at 2. cbn [fst snd].
  rewrite list_lookup_middle by done.
  destruct (step f th) as [f' th'].
  rewrite insert_app_r_alt by lia. rewrite Nat.sub_diag. apply IH.
Qed.

Lemma sequential_schedule_runs (cs : list call) : forall f (pre : list thread),
  run_schedule (f, pre ++ map enter cs) (sequential_schedule (length pre) cs)
  = (fst (run f cs), pre ++ zip_with Returned cs (snd (run f cs))).
Proof.
  induction cs as [|c cs IH]; intros f pre; [done|].
  cbn [map sequential_schedule]. rewrite run_schedule_app.
  rewrite run_schedule_alone, exec_alone. cbn [fst snd].
  rewrite frontier_run_cons. cbn [fst snd zip_with].
  rewrite (cons_middle (Returned c (snd (exec f c))) pre), app_assoc.
  rewrite (cons_middle (Returned c (snd (exec f c))) pre (zip_with _ _ _)).
  rewrite app_assoc.
  replace (S (length pre))
    with (length (pre ++ [Returned c (snd (exec f c))]))
    by (rewrite length_app; simpl; lia).
  apply IH.
Qed.

(** Running the calls one after the other is the outcome of one particular
    schedule of the threads that make them. *)
Theorem sequential_run_is_a_schedule f (cs : list call) :
  run_schedule (spawn f cs) (sequential_schedule 0 cs)
  = (fst (run f cs), zip_with Returned cs (snd (run f cs))).
Proof. apply (sequential_schedule_runs cs f []). Qed.

(** ** What each exit of try_add counts *)

Lemma tally_app (e : exit) (es es' : list exit) :
  tally e (es ++ es') = tally e es + tally e es'.
Proof.
  induction es as [|e' es IH]; [done|].
  cbn [app tally]. rewrite IH. lia.
Qed.

(** One block of [try_add]: a duplicate exit increments
    [duplicates_skipped], the exit after an accepted push increments
    [urls_added], and nothing else moves a counter. *)
Lemma section_counters f (p : point) url timeout :
  let f' := fst (try_add_section f p url timeout) in
  let es := option_list (section_exit f p url timeout) in
  urls_added_ f' = Nat.iter (tally ExitAdded es) size_incr (urls_added_ f)
  /\ duplicates_skipped_ f'
     = Nat.iter (tally ExitDuplicate es) size_incr (duplicates_skipped_ f)
  /\ invalid_skipped_ f' = invalid_skipped_ f.
Proof.
  unfold section_exit. destruct p; cbn [try_add_section].
  - rewrite probe_visited_eq. by case_decide.
  - rewrite insert_visited_eq. by case_decide.
  - rewrite enqueue_eq.
    by destruct (snd (BoundedQueue.push (queue_ f) url timeout)).
Qed.

Lemma step_counters f th :
  let f' := fst (step f th) in
  let es := option_list (next_exit f th) in
  urls_added_ f' = Nat.iter (tally ExitAdded es) size_incr (urls_added_ f)
  /\ duplicates_skipped_ f'
     = Nat.iter (tally ExitDuplicate es) size_incr (duplicates_skipped_ f)
  /\ invalid_skipped_ f' = invalid_skipped_ f.
Proof.
  destruct th as [c l|c r]; [|done].
  destruct c as [url timeout|url|urls|timeout|url|url|];
    destruct l as [|p|p burl rest count]; try done; cbn [step next_exit].
  - pose proof (section_counters f p url timeout) as H.
    by destruct (try_add_section f p url timeout) as [f' [p'|b]].
  - pose proof (section_counters f p url 0) as H.
    by destruct (try_add_section f p url 0) as [f' [p'|b]].
  - pose proof (section_counters f p burl 0) as H.
    destruct (try_add_section f p burl 0) as [f' [p'|b]]; [done|].
    by destruct rest.
  - cbn [exec]. unfold pop.
    by destruct (BoundedQueue.pop (queue_ f) timeout).
Qed.

(** Along any schedule the counters have been incremented once per exit of
    the matching kind, and by nothing else. *)
Lemma run_schedule_counters schedule : forall cfg,
  let f' := fst (run_schedule cfg schedule) in
  let es := exits cfg schedule in
  urls_added_ f'
  = Nat.iter (tally ExitAdded es) size_incr (urls_added_ (fst cfg))
  /\ duplicates_skipped_ f'
     = Nat.iter (tally ExitDuplicate es) size_incr
         (duplicates_skipped_ (fst cfg))
  /\ invalid_skipped_ f' = invalid_skipped_ (fst cfg).
Proof.
  induction schedule as [|i schedule IH]; intros cfg; [done|].
  cbn [exits]. cbn zeta. unfold run_schedule. cbn [fold_left].
  fold (run_schedule (step_at cfg i) schedule).
  destruct (IH (step_at cfg i)) as (IH1 & IH2 & IH3). cbn zeta in *.
  rewrite IH1, IH2, IH3, !tally_app.
  destruct (step_at_cases cfg i) as [[Hnone Heq]|(th & Hth & Heq)];
    rewrite ?Hnone, ?Hth, Heq; [done|].
  cbn [fst]. destruct (step_counters (fst cfg) th) as (H1 & H2 & H3).
  cbn zeta in *. rewrite H1, H2, H3.
  rewrite !(Nat.add_comm (tally _ (option_list _))).
  by rewrite !Nat.iter_add.
Qed.

(** ** Calls of try_add racing on one URL *)

Lemma sum_list_with_insert {A : Type} (m : A -> nat) (l : list A) :
  forall (i : nat) (x y : A),
  l !! i = Some x ->
  sum_list_with m (<[i := y]> l) + m x = sum_list_with m l + m y.
Proof.
  induction l as [|z l IH]; intros i x y Hi; [done|].
  destruct i as [|i]; simpl in *.
  - simplify_eq. lia.
  - specialize (IH i x y Hi). lia.
Qed.

(** The step of a thread that calls [try_add url], with what it does to
    the frontier and to the three tallies of the thread. *)
Lemma try_add_thread_step url f th :
  calls_try_add url th ->
  let f' := fst (step f th) in
  let th' := snd (step f th) in
  calls_try_add url th'
  /\ ((f' = f /\ returned th' = returned th /\ at_push th' = at_push th
       /\ returned_true th' = returned_true th)
      \/ (url ∈ visited_ f /\ f' = count_duplicate f
          /\ returned th = 0 /\ at_push th = 0 /\ returned_true th = 0
          /\ returned th' = 1 /\ at_push th' = 0 /\ returned_true th' = 0)
      \/ ((url ∉ visited_ f) /\ f' = set_visited f ({[url]} ∪ visited_ f)
          /\ returned th = 0 /\ at_push th = 0 /\ returned_true th = 0
          /\ returned th' = 0 /\ at_push th' = 1 /\ returned_true th' = 0)
      \/ (exists timeout,
            f' = count_added
                   (set_queue f (fst (BoundedQueue.push (queue_ f) url timeout)))
            /\ returned th = 0 /\ at_push th = 1 /\ returned_true th = 0
            /\ returned th' = 1 /\ at_push th' = 0 /\ returned_true th' = 1)
      \/ (f' = f
          /\ returned th = 0 /\ at_push th = 1 /\ returned_true th = 0
          /\ returned th' = 1 /\ at_push th' = 0 /\ returned_true th' = 0)).
Proof.
  intros [(timeout & p & ->)|(timeout & b & ->)]; cbn zeta.
  2:{ split; [right; do 2 eexists; reflexivity|]. by left. }
  cbn [step]. destruct p; cbn [try_add_section].
  - rewrite probe_visited_eq. case_decide; cbn [fst snd].
    + split; [right; do 2 eexists; reflexivity|]. right. left. by split_and!.
    + split; [left; do 2 eexists; reflexivity|]. by left.
  - rewrite insert_visited_eq. case_decide; cbn [fst snd].
    + split; [right; do 2 eexists; reflexivity|]. right. left. by split_and!.
    + split; [left; do 2 eexists; reflexivity|]. right. right. left. by split_and!.
  - rewrite enqueue_eq.
    destruct (snd (BoundedQueue.push (queue_ f) url timeout)); cbn [fst snd].
    + split; [right; do 2 eexists; reflexivity|]. right. right. right. left.
      exists timeout. by split_and!.
    + split; [right; do 2 eexists; reflexivity|]. right. right. right. right.
      by split_and!.
Qed.

Lemma step_at_race_account url f0 cfg (i : nat) :
  race_account url f0 cfg -> race_account url f0 (step_at cfg i).
Proof.
  intros (Hwf & Hinv & Hcases).
  destruct (step_at_cases cfg i) as [[_ ->]|(th & Hth & ->)];
    [by split_and!|].
  pose proof (Forall_lookup_1 _ _ _ _ Hwf Hth) as Hcall.
  destruct (try_add_thread_step url (fst cfg) th Hcall) as (Hcall' & Hstep).
  destruct (step_frame (fst cfg) th) as (_ & Hinv' & _).
  pose proof (sum_list_with_insert returned (snd cfg) i th
                (snd (step (fst cfg) th)) Hth) as HR.
  pose proof (sum_list_with_insert at_push (snd cfg) i th
                (snd (step (fst cfg) th)) Hth) as HP.
  pose proof (sum_list_with_insert returned_true (snd cfg) i th
                (snd (step (fst cfg) th)) Hth) as HRt.
  assert (Hle : at_push th <= sum_list_with at_push (snd cfg)).
  { apply sum_list_with_in. by eapply list_elem_of_lookup_2. }
  cbn zeta in Hstep, Hcases.
  unfold race_account. cbn [fst snd].
  set (g' := fst (step (fst cfg) th)) in *.
  set (th' := snd (step (fst cfg) th)) in *.
  set (R' := sum_list_with returned (<[i:=th']> (snd cfg))) in *.
  set (P' := sum_list_with at_push (<[i:=th']> (snd cfg))) in *.
  set (Rt' := sum_list_with returned_true (<[i:=th']> (snd cfg))) in *.
  set (R := sum_list_with returned (snd cfg)) in *.
  set (P := sum_list_with at_push (snd cfg)) in *.
  set (Rt := sum_list_with returned_true (snd cfg)) in *.
  split; [by apply Forall_insert|]. split; [congruence|].
  destruct Hstep as [(Hg & Hr & Hp & Ht)
    |[(Hin & Hg & Hr & Hp & Ht & Hr' & Hp' & Ht')
    |[(Hnew & Hg & Hr & Hp & Ht & Hr' & Hp' & Ht')
    |[(timeout & Hg & Hr & Hp & Ht & Hr' & Hp' & Ht')
    |(Hg & Hr & Hp & Ht & Hr' & Hp' & Ht')]]]];
    rewrite Hg;
    destruct Hcases as [(H0 & Hout & HR0 & HP0 & HRt0 & Hd & Ha)
      |[(H0 & Hnow & HP0 & HRt0 & Hd & Ha)
      |(H0 & Hnow & Hone & Hsome & Hd & Ha)]];
    try lia; try done.
  - (* a step that changes nothing, nobody inserted yet *)
    left. split_and!; try done; lia.
  - right. left. split_and!; try done; try lia.
    rewrite Hd. f_equal. lia.
  - right. right. split_and!; try done; try lia.
    + rewrite Hd. f_equal. lia.
    + rewrite Ha. f_equal. lia.
  - (* a duplicate exit *)
    right. left. cbn [count_duplicate visited_ duplicates_skipped_ urls_added_].
    split_and!; try done; try lia.
    rewrite Hd. replace R' with (S R) by lia. by rewrite Nat.iter_succ.
  - right. right.
    cbn [count_duplicate visited_ duplicates_skipped_ urls_added_].
    split_and!; try done; try lia.
    + rewrite Hd. replace (R' + P' - 1) with (S (R + P - 1)) by lia.
      by rewrite Nat.iter_succ.
    + rewrite Ha. f_equal. lia.
  - (* the insertion *)
    right. right.
    cbn [set_visited visited_ duplicates_skipped_ urls_added_].
    split_and!; try done; try lia.
    + apply elem_of_union_l. by apply elem_of_singleton.
    + rewrite Hd. replace (R' + P' - 1) with 0 by lia. done.
    + rewrite Ha. replace Rt' with 0 by lia. done.
  - (* the push, accepted *)
    right. right.
    cbn [count_added set_queue visited_ duplicates_skipped_ urls_added_].
    split_and!; try done; try lia.
    + rewrite Hd. f_equal. lia.
    + rewrite Ha. replace Rt' with (S Rt) by lia. by rewrite Nat.iter_succ.
  - (* the push, refused *)
    right. right. split_and!; try done; try lia.
    + rewrite Hd. f_equal. lia.
    + rewrite Ha. f_equal. lia.
Qed.

Lemma spawn_race_account url f (timeouts : list milliseconds) :
  race_account url f (spawn f (map (TryAdd url) timeouts)).
Proof.
  assert (Hzero : forall m : thread -> nat,
    (forall timeout, m (Running (TryAdd url timeout) (InTryAdd AtProbe)) = 0) ->
    sum_list_with m (map enter (map (TryAdd url) timeouts)) = 0).
  { intros m Hm. induction timeouts as [|timeout rest IH]; [done|].
    simpl. by rewrite Hm, IH. }
  unfold race_account, spawn. cbn [fst snd].
  rewrite !Hzero by done. clear Hzero.
  split; [|split; [done|]].
  - induction timeouts as [|timeout rest IH]; [done|].
    constructor; [|exact IH]. left. do 2 eexists. reflexivity.
  - destruct (decide (url ∈ visited_ f)); [right; left|left]; by split_and!.
Qed.

Lemma returned_or_at_push (l : list thread) :
  sum_list_with returned l + sum_list_with at_push l <= length l.
Proof.
  induction l as [|th l IH]; [done|].
  assert (returned th + at_push th <= 1).
  { destruct th as [c k|c r]; [|cbn; lia].
    unfold at_push. cbn [returned]. destruct (pushing _); lia. }
  simpl. lia.
Qed.

Lemma run_schedule_length schedule : forall cfg,
  length (snd (run_schedule cfg schedule)) = length (snd cfg).
Proof.
  induction schedule as [|i schedule IH]; intros cfg; [done|].
  unfold run_schedule. cbn [fold_left].
  fold (run_schedule (step_at cfg i) schedule). rewrite IH.
  destruct (step_at_cases cfg i) as [[_ ->]|(th & _ & ->)]; [done|].
  cbn [snd]. apply length_insert.
Qed.

(** A race among calls of [try_add url] and nothing else.  With [R]
    threads returned, [P] at the push and [Rt] returned with true: at most
    one call has returned true, [urls_added] was incremented once for it,
    and [duplicates_skipped] was incremented once for every call that has
    returned or reached the push, except for the one call that inserted
    [url] when [url] was new at the start. *)
Lemma race_counters url f (timeouts : list milliseconds) schedule :
  let race := run_schedule (spawn f (map (TryAdd url) timeouts)) schedule in
  let R := sum_list_with returned (snd race) in
  let P := sum_list_with at_push (snd race) in
  let Rt := sum_list_with returned_true (snd race) in
  let inserter := if decide (url ∈ visited_ f) then 0 else 1 in
  Rt <= 1
  /\ urls_added_ (fst race) = Nat.iter Rt size_incr (urls_added_ f)
  /\ duplicates_skipped_ (fst race)
     = Nat.iter (R + P - inserter) size_incr (duplicates_skipped_ f)
  /\ invalid_skipped_ (fst race) = invalid_skipped_ f
  /\ (R = length timeouts ->
      duplicates_skipped_ (fst race)
      = Nat.iter (length timeouts - inserter) size_incr
          (duplicates_skipped_ f)).
Proof.
  intros race R P Rt inserter.
  assert (Hacc : race_account url f race).
  { apply (run_schedule_ind (race_account url f));
      [apply step_at_race_account|apply spawn_race_account]. }
  assert (Hlen : R + P <= length timeouts).
  { pose proof (returned_or_at_push (snd race)) as Hle.
    subst race. rewrite run_schedule_length in Hle.
    unfold spawn in Hle. cbn [snd] in Hle. by rewrite !length_map in Hle. }
  destruct Hacc as (_ & Hinv & Hcases). cbn zeta in Hcases.
  fold R P Rt in Hcases.
  assert (Hmain : Rt <= 1
    /\ urls_added_ (fst race) = Nat.iter Rt size_incr (urls_added_ f)
    /\ duplicates_skipped_ (fst race)
       = Nat.iter (R + P - inserter) size_incr (duplicates_skipped_ f)).
  { subst inserter.
    destruct Hcases as [(H0 & Hout & HR0 & HP0 & HRt0 & Hd & Ha)
      |[(H0 & Hnow & HP0 & HRt0 & Hd & Ha)
      |(H0 & Hnow & Hone & Hsome & Hd & Ha)]].
    - rewrite decide_False by done. rewrite HR0, HP0, HRt0, Hd, Ha.
      split_and!; [lia|done|done].
    - rewrite decide_True by done. rewrite HP0, HRt0, Hd, Ha.
      split_and!; [lia|done|]. f_equal. lia.
    - rewrite decide_False by done. rewrite Hd, Ha.
      split_and!; [lia|done|done]. }
  destruct Hmain as (H1 & H2 & H3).
  split_and!; [done|done|done|done|].
  intros Hall. rewrite H3. f_equal. lia.
Qed.

End Interleavings.

(** * The laws of the frontier *)

Section FrontierLaws.
Import URLFrontier.
Implicit Types (f : URLFrontier.t) (url u : string) (timeout : milliseconds).
Implicit Types (th : thread) (cfg : config) (schedule : list nat).

(** C1, as the code has it.  Across any number of [try_add(url, timeout)]
    calls on the same frontier at most one returns true, whether the calls
    follow one another or race on concurrent threads.  Every call that
    finds [url] in the visited set, at its probe or at the check under the
    write lock, returns false and increments [duplicates_skipped] by one,
    leaving the other two counters, the queue and the visited set alone.
    The one call that finds [url] new and inserts it leaves
    [duplicates_skipped] alone; it returns true, incrementing [urls_added],
    when the queue accepts the push, and returns false with all three
    counters unchanged when the queue refuses it.  So in a race among [n]
    such calls that started with [url] new, once all have returned
    [duplicates_skipped] has been incremented [n - 1] times ([n] times when
    [url] was visited from the start). *)
Theorem dedup_law f url (timeouts : list milliseconds) (cs : list call)
    schedule (g : URLFrontier.t) (timeout : milliseconds) (p : point) :
  let log := try_add_log f url timeouts in
  let cfg := run_schedule (spawn f cs) schedule in
  let race := run_schedule (spawn f (map (TryAdd url) timeouts)) schedule in
  let R := sum_list_with returned (snd race) in
  let P := sum_list_with at_push (snd race) in
  let Rt := sum_list_with returned_true (snd race) in
  let inserter := if decide (url ∈ visited_ f) then 0 else 1 in
  (forall (i j : nat) pre_i post_i pre_j post_j,
      log !! i = Some (pre_i, true, post_i) ->
      log !! j = Some (pre_j, true, post_j) ->
      i = j)
  /\ (forall (i : nat) pre r post,
        log !! i = Some (pre, r, post) ->
        (0 < i -> url ∈ visited_ pre)
        /\ (url ∈ visited_ pre ->
              r = false
              /\ duplicates_skipped_ post
                 = size_incr (duplicates_skipped_ pre)
              /\ urls_added_ post = urls_added_ pre
              /\ invalid_skipped_ post = invalid_skipped_ pre)
        /\ (url ∉ visited_ pre ->
              i = 0
              /\ url ∈ visited_ post
              /\ duplicates_skipped_ post = duplicates_skipped_ pre
              /\ invalid_skipped_ post = invalid_skipped_ pre
              /\ exists t : milliseconds,
                   timeouts !! i = Some t
                   /\ (r = true
                         /\ snd (BoundedQueue.push (queue_ pre) url t) = true
                         /\ urls_added_ post = size_incr (urls_added_ pre)
                       \/ r = false
                         /\ snd (BoundedQueue.push (queue_ pre) url t) = false
                         /\ urls_added_ post = urls_added_ pre)))
  /\ (forall (i j : nat) (ti tj : milliseconds),
        snd cfg !! i = Some (Returned (TryAdd url ti) (RBool true)) ->
        snd cfg !! j = Some (Returned (TryAdd url tj) (RBool true)) ->
        i = j)
  /\ (url ∈ visited_ g -> p <> AtPush ->
      let th := Running (TryAdd url timeout) (InTryAdd p) in
      snd (step g th) = Returned (TryAdd url timeout) (RBool false)
      /\ duplicates_skipped_ (fst (step g th))
         = size_incr (duplicates_skipped_ g)
      /\ urls_added_ (fst (step g th)) = urls_added_ g
      /\ invalid_skipped_ (fst (step g th)) = invalid_skipped_ g
      /\ queue_ (fst (step g th)) = queue_ g
      /\ visited_ (fst (step g th)) = visited_ g)
  /\ (url ∉ visited_ g ->
      let th := Running (TryAdd url timeout) (InTryAdd AtInsert) in
      snd (step g th) = Running (TryAdd url timeout) (InTryAdd AtPush)
      /\ visited_ (fst (step g th)) = {[url]} ∪ visited_ g
      /\ stats (fst (step g th)) = stats g
      /\ queue_ (fst (step g th)) = queue_ g)
  /\ (let th := Running (TryAdd url timeout) (InTryAdd AtPush) in
      (snd (BoundedQueue.push (queue_ g) url timeout) = true
       /\ snd (step g th) = Returned (TryAdd url timeout) (RBool true)
       /\ urls_added_ (fst (step g th)) = size_incr (urls_added_ g)
       /\ duplicates_skipped_ (fst (step g th)) = duplicates_skipped_ g
       /\ invalid_skipped_ (fst (step g th)) = invalid_skipped_ g)
      \/ (snd (BoundedQueue.push (queue_ g) url timeout) = false
          /\ step g th = (g, Returned (TryAdd url timeout) (RBool false))))
  /\ Rt <= 1
  /\ urls_added_ (fst race) = Nat.iter Rt size_incr (urls_added_ f)
  /\ duplicates_skipped_ (fst race)
     = Nat.iter (R + P - inserter) size_incr (duplicates_skipped_ f)
  /\ invalid_skipped_ (fst race) = invalid_skipped_ f
  /\ (R = length timeouts ->
      duplicates_skipped_ (fst race)
      = Nat.iter (length timeouts - inserter) size_incr
          (duplicates_skipped_ f)).
Proof.
  intros log cfg race R P Rt inserter.
  assert (Hentry : forall (i : nat) pre r post,
    log !! i = Some (pre, r, post) ->
    (0 < i -> url ∈ visited_ pre)
    /\ exists t, timeouts !! i = Some t /\ try_add pre url t = (post, r)).
  { intros i pre r post Hi.
    destruct (try_add_log_entry _ _ _ _ _ _ _ Hi)
      as (t & Hlook & Ht & _ & Hpos).
    split; [done|]. by exists t. }
  assert (Htrue : forall (i : nat) pre post,
    log !! i = Some (pre, true, post) -> i = 0).
  { intros i pre post Hi.
    destruct (Hentry _ _ _ _ Hi) as (Hpos & t & _ & Ht).
    destruct i as [|i]; [done|].
    assert (Hin : url ∈ visited_ pre) by (apply Hpos; lia).
    rewrite try_add_eq, decide_True in Ht by done. discriminate. }
  split.
  { intros i j pre_i post_i pre_j post_j Hi Hj.
    rewrite (Htrue _ _ _ Hi). by rewrite (Htrue _ _ _ Hj). }
  split.
  { intros i pre r post Hi.
    destruct (Hentry _ _ _ _ Hi) as (Hpos & t & Hlook & Ht).
    split; [done|].
    pose proof (try_add_outcome pre url t) as Hout.
    pose proof (try_add_visited pre url t) as Hv.
    rewrite Ht in Hout, Hv. cbn [fst snd] in Hout, Hv. unfold stats in Hout.
    split.
    - intros Hin. destruct Hout as [(_ & Hr & Hs)|[(Hn & _)|(Hn & _)]];
        [|done|done].
      by simplify_eq.
    - intros Hnew.
      destruct Hout as [(Hin & _)|[(_ & Hr & Hq & Hs)|(_ & Hr & Hq & Hs)]];
        [done| |].
      + split; [destruct i; [done|exfalso; apply Hnew, Hpos; lia]|].
        split; [rewrite Hv; apply elem_of_union_l; by apply elem_of_singleton|].
        simplify_eq. split; [done|]. split; [done|].
        exists t. split; [done|]. left. by split_and!.
      + split; [destruct i; [done|exfalso; apply Hnew, Hpos; lia]|].
        split; [rewrite Hv; apply elem_of_union_l; by apply elem_of_singleton|].
        simplify_eq. split; [done|]. split; [done|].
        exists t. split; [done|]. right. by split_and!. }
  split; [exact (proj2 (try_add_race f cs schedule url))|].
  split.
  { intros Hin Hp th. subst th. cbn [step].
    destruct p; [| |done]; cbn [try_add_section].
    - rewrite probe_visited_eq, decide_True by done. by split_and!.
    - rewrite insert_visited_eq, decide_True by done. by split_and!. }
  split.
  { intros Hnew th. subst th. cbn [step try_add_section].
    rewrite insert_visited_eq, decide_False by done. by split_and!. }
  split.
  { intros th. subst th. cbn [step try_add_section]. rewrite enqueue_eq.
    destruct (snd (BoundedQueue.push (queue_ g) url timeout));
      [left|right]; by split_and!. }
  apply race_counters.
Qed.

(** C2.  Visited before enqueued.  Take a fresh frontier, any threads
    calling it and any schedule.  In the configuration reached: a thread
    about to run the push of [try_add] for [u] finds [u] in the visited
    set; a URL that the next step of a thread adds to the queue is the one
    that thread was pushing, and it is visited before the step; and every
    URL in the queue is in the visited set, now and after any further
    steps.  The same holds after any sequence of calls made one after the
    other. *)
Theorem visited_before_enqueued (cap : nat) (cs : list call) schedule later :
  let cfg := run_schedule (spawn (new cap) cs) schedule in
  let cfg' := run_schedule cfg later in
  (forall (i : nat) th u,
      snd cfg !! i = Some th -> pushing th = Some u ->
      u ∈ visited_ (fst cfg))
  /\ (forall (i : nat) th u,
        snd cfg !! i = Some th ->
        u ∈ items (fst (step_at cfg i)) ->
        u ∈ items (fst cfg)
        \/ (pushing th = Some u /\ u ∈ visited_ (fst cfg)))
  /\ (forall u,
        u ∈ items (fst cfg) ->
        u ∈ visited_ (fst cfg) /\ u ∈ visited_ (fst cfg'))
  /\ (forall u,
        u ∈ items (fst (run (new cap) cs)) ->
        u ∈ visited_ (fst (run (new cap) cs))).
Proof.
  intros cfg cfg'.
  assert (Hreach : forall sch,
    queued_is_visited (run_schedule (spawn (new cap) cs) sch)).
  { intros sch. apply (run_schedule_ind queued_is_visited);
      [apply step_at_queued_is_visited|].
    apply spawn_queued_is_visited. intros u Hu.
    by apply elem_of_nil in Hu. }
  destruct (Hreach schedule) as [Hq Hp]. fold cfg in Hq, Hp.
  split; [exact Hp|]. split; [|split].
  - intros i th u Hth Hu.
    destruct (step_at_cases cfg i) as [[Hnone _]|(th' & Hth' & Heq)];
      [congruence|].
    rewrite Heq in Hu. cbn [fst] in Hu. simplify_eq.
    destruct (step_frame (fst cfg) th) as (_ & _ & _ & Hitems & _).
    destruct (Hitems u Hu) as [?|Hpush]; [by left|right].
    split; [done|]. by eapply Hp.
  - intros u Hu. split; [by apply Hq|].
    destruct (run_schedule_frame later cfg) as (Hv & _).
    by apply Hv, Hq.
  - destruct (Hreach (sequential_schedule 0 cs)) as [Hseq _].
    rewrite sequential_run_is_a_schedule in Hseq. exact Hseq.
Qed.

(** C3, as the code has it.  A call of [try_add] changes at most one of
    the three counters, by one increment: [urls_added] when it returns
    true, [duplicates_skipped] when the URL was already visited, and none
    of them when the URL was new and the queue refused it.  This holds of
    the call run without interruption, and of each of its blocks on
    whatever state the block finds when other threads run in between: the
    probe and the check under the write lock each return false with
    [duplicates_skipped] incremented when they find the URL visited, and
    otherwise go on without touching a counter; the push returns true with
    [urls_added] incremented when the queue accepts, and false with no
    counter changed when it refuses.  So along every schedule of every
    threads each counter has been incremented once per exit of its kind
    and by nothing else.  On a fresh frontier of positive capacity
    [try_add("http://x")] returns true with [urls_added = 1], and a second
    [try_add("http://x")] returns false with [duplicates_skipped = 1]. *)
Theorem counter_accounting f url timeout (cap : nat) (t1 t2 : milliseconds)
    (p : point) cfg schedule :
  (let f' := fst (try_add f url timeout) in
   let r := snd (try_add f url timeout) in
   (url ∈ visited_ f /\ r = false
    /\ stats f' = {| urls_added := urls_added_ f;
                     duplicates_skipped := size_incr (duplicates_skipped_ f);
                     invalid_skipped := invalid_skipped_ f |})
   \/ ((url ∉ visited_ f) /\ r = true
       /\ snd (BoundedQueue.push (queue_ f) url timeout) = true
       /\ stats f' = {| urls_added := size_incr (urls_added_ f);
                        duplicates_skipped := duplicates_skipped_ f;
                        invalid_skipped := invalid_skipped_ f |})
   \/ ((url ∉ visited_ f) /\ r = false
       /\ snd (BoundedQueue.push (queue_ f) url timeout) = false
       /\ stats f' = stats f))
  /\ (let first := try_add (new (S cap)) "http://x" t1 in
      let second := try_add (fst first) "http://x" t2 in
      snd first = true
      /\ stats (fst first) = {| urls_added := 1; duplicates_skipped := 0;
                                invalid_skipped := 0 |}
      /\ snd second = false
      /\ stats (fst second) = {| urls_added := 1; duplicates_skipped := 1;
                                 invalid_skipped := 0 |})
  /\ (let g := fst (try_add_section f AtProbe url timeout) in
      let o := snd (try_add_section f AtProbe url timeout) in
      (url ∈ visited_ f /\ o = inr false
       /\ stats g = {| urls_added := urls_added_ f;
                       duplicates_skipped := size_incr (duplicates_skipped_ f);
                       invalid_skipped := invalid_skipped_ f |})
      \/ ((url ∉ visited_ f) /\ o = inl AtInsert /\ stats g = stats f))
  /\ (let g := fst (try_add_section f AtInsert url timeout) in
      let o := snd (try_add_section f AtInsert url timeout) in
      (url ∈ visited_ f /\ o = inr false
       /\ stats g = {| urls_added := urls_added_ f;
                       duplicates_skipped := size_incr (duplicates_skipped_ f);
                       invalid_skipped := invalid_skipped_ f |})
      \/ ((url ∉ visited_ f) /\ o = inl AtPush /\ stats g = stats f))
  /\ (let g := fst (try_add_section f AtPush url timeout) in
      let o := snd (try_add_section f AtPush url timeout) in
      (snd (BoundedQueue.push (queue_ f) url timeout) = true /\ o = inr true
       /\ stats g = {| urls_added := size_incr (urls_added_ f);
                       duplicates_skipped := duplicates_skipped_ f;
                       invalid_skipped := invalid_skipped_ f |})
      \/ (snd (BoundedQueue.push (queue_ f) url timeout) = false
          /\ o = inr false /\ stats g = stats f))
  /\ step f (Running (TryAdd url timeout) (InTryAdd p))
     = (fst (try_add_section f p url timeout),
        match snd (try_add_section f p url timeout) with
        | inl p' => Running (TryAdd url timeout) (InTryAdd p')
        | inr r => Returned (TryAdd url timeout) (RBool r)
        end)
  /\ (section_exit f p url timeout = Some ExitDuplicate
      <-> p <> AtPush /\ url ∈ visited_ f)
  /\ (section_exit f p url timeout = Some ExitAdded
      <-> p = AtPush
          /\ snd (BoundedQueue.push (queue_ f) url timeout) = true)
  /\ (section_exit f p url timeout = Some ExitRefused
      <-> p = AtPush
          /\ snd (BoundedQueue.push (queue_ f) url timeout) = false)
  /\ (let f' := fst (run_schedule cfg schedule) in
      let es := exits cfg schedule in
      urls_added_ f'
      = Nat.iter (tally ExitAdded es) size_incr (urls_added_ (fst cfg))
      /\ duplicates_skipped_ f'
         = Nat.iter (tally ExitDuplicate es) size_incr
             (duplicates_skipped_ (fst cfg))
      /\ invalid_skipped_ f' = invalid_skipped_ (fst cfg)).
Proof.
  assert (Hscenario :
    let first := try_add (new (S cap)) "http://x" t1 in
    let second := try_add (fst first) "http://x" t2 in
    snd first = true
    /\ stats (fst first) = {| urls_added := 1; duplicates_skipped := 0;
                              invalid_skipped := 0 |}
    /\ snd second = false
    /\ stats (fst second) = {| urls_added := 1; duplicates_skipped := 1;
                               invalid_skipped := 0 |}).
  { 
  intros first second.
  assert (Hfirst : first
    = (count_added (set_queue (set_visited (new (S cap)) ({["http://x"]} ∪ ∅))
         {| BoundedQueue.capacity_ := S cap;
            BoundedQueue.items_ := ["http://x"];
            BoundedQueue.shutdown_flag_ := false |}), true)).
  { subst first. rewrite try_add_eq.
    rewrite decide_False by (simpl; apply not_elem_of_empty).
    by rewrite enqueue_eq. }
  assert (Hsecond : second = (count_duplicate (fst first), false)).
  { subst second. rewrite try_add_eq. rewrite decide_True; [done|].
    rewrite Hfirst. simpl. apply elem_of_union_l. by apply elem_of_singleton. }
  rewrite Hsecond. rewrite Hfirst. by repeat split. }
  split; [apply try_add_outcome|]. split; [exact Hscenario|].
  clear Hscenario. split_and!.
  - cbn [try_add_section]. rewrite probe_visited_eq.
    case_decide; [by left|by right].
  - cbn [try_add_section]. rewrite insert_visited_eq.
    case_decide; [by left|by right].
  - cbn [try_add_section]. rewrite enqueue_eq.
    destruct (snd (BoundedQueue.push (queue_ f) url timeout));
      [by left|by right].
  - cbn [step].
    by destruct (try_add_section f p url timeout) as [g [p'|r]].
  - unfold section_exit. destruct p; cbn [try_add_section].
    + rewrite probe_visited_eq. case_decide; cbn [snd]; split; try done.
      by intros [_ ?].
    + rewrite insert_visited_eq. case_decide; cbn [snd]; split; try done.
      by intros [_ ?].
    + rewrite enqueue_eq.
      destruct (snd (BoundedQueue.push (queue_ f) url timeout));
        cbn [snd]; split; try done; by intros [? _].
  - unfold section_exit. destruct p; cbn [try_add_section].
    + rewrite probe_visited_eq. case_decide; cbn [snd]; split; try done;
        by intros [? _].
    + rewrite insert_visited_eq. case_decide; cbn [snd]; split; try done;
        by intros [? _].
    + rewrite enqueue_eq.
      destruct (snd (BoundedQueue.push (queue_ f) url timeout));
        cbn [snd]; split; try done; by intros [_ ?].
  - unfold section_exit. destruct p; cbn [try_add_section].
    + rewrite probe_visited_eq. case_decide; cbn [snd]; split; try done;
        by intros [? _].
    + rewrite insert_visited_eq. case_decide; cbn [snd]; split; try done;
        by intros [? _].
    + rewrite enqueue_eq.
      destruct (snd (BoundedQueue.push (queue_ f) url timeout));
        cbn [snd]; split; try done; by intros [_ ?].
  - apply run_schedule_counters.
Qed.

(** C4.  No rollback when the push fails.  When [url] is not yet visited
    and the queue refuses it (full, timed out or shut down), [try_add]
    returns false and [url] stays in the visited set: it is still there
    after any later calls, made one after the other or by concurrent
    threads, and every later [try_add] of it returns false.  The same holds
    when other threads ran between the insertion and the push: the push
    block that is refused returns false and leaves the frontier as it
    is. *)
Theorem no_rollback_on_push_failure f url timeout :
  url ∉ visited_ f ->
  snd (BoundedQueue.push (queue_ f) url timeout) = false ->
  snd (try_add f url timeout) = false
  /\ url ∈ visited_ (fst (try_add f url timeout))
  /\ queue_ (fst (try_add f url timeout)) = queue_ f
  /\ (forall (cs : list call) (timeout' : milliseconds),
        let f' := fst (run (fst (try_add f url timeout)) cs) in
        url ∈ visited_ f' /\ snd (try_add f' url timeout') = false)
  /\ (forall (ths : list thread) schedule (timeout' : milliseconds),
        let f' := fst (run_schedule (fst (try_add f url timeout), ths)
                         schedule) in
        url ∈ visited_ f' /\ snd (try_add f' url timeout') = false)
  /\ (forall f1,
        snd (BoundedQueue.push (queue_ f1) url timeout) = false ->
        step f1 (Running (TryAdd url timeout) (InTryAdd AtPush))
        = (f1, Returned (TryAdd url timeout) (RBool false))).
Proof.
  intros Hnew Hpush.
  pose proof (try_add_visited f url timeout) as Hv.
  assert (Hin : url ∈ visited_ (fst (try_add f url timeout))).
  { rewrite Hv. apply elem_of_union_l. by apply elem_of_singleton. }
  assert (Hdup : forall f' timeout',
    url ∈ visited_ f' -> snd (try_add f' url timeout') = false).
  { intros f' timeout' Hin'. rewrite try_add_eq. by rewrite decide_True. }
  split_and!.
  - rewrite try_add_eq, decide_False by done.
    rewrite enqueue_eq. simpl. by rewrite Hpush.
  - done.
  - rewrite try_add_eq, decide_False by done.
    rewrite enqueue_eq. simpl. by rewrite Hpush.
  - intros cs timeout' f'.
    destruct (run_frame cs (fst (try_add f url timeout))) as (Hsub & _).
    fold f' in Hsub. split; [by apply Hsub|]. by apply Hdup, Hsub.
  - intros ths schedule timeout' f'.
    destruct (run_schedule_frame schedule (fst (try_add f url timeout), ths))
      as (Hsub & _).
    fold f' in Hsub. cbn [fst] in Hsub.
    split; [by apply Hsub|]. by apply Hdup, Hsub.
  - intros f1 Hrefused. cbn [step try_add_section].
    rewrite enqueue_eq. by rewrite Hrefused.
Qed.

(** C5.  Duplicate fast path.  When [url] is already in the visited set,
    [try_add] returns false from its first block (the probe under the read
    lock), so the thread making the call returns in its first step and the
    block that calls [queue_.push] is never reached; the queue, the
    visited set, [urls_added] and [invalid_skipped] are unchanged and
    [duplicates_skipped] is incremented. *)
Theorem duplicate_fast_path f url timeout :
  url ∈ visited_ f ->
  probe_visited f url = (count_duplicate f, Some false)
  /\ step f (enter (TryAdd url timeout))
     = (count_duplicate f, Returned (TryAdd url timeout) (RBool false))
  /\ try_add f url timeout = (count_duplicate f, false)
  /\ queue_ (fst (try_add f url timeout)) = queue_ f
  /\ visited_ (fst (try_add f url timeout)) = visited_ f
  /\ urls_added_ (fst (try_add f url timeout)) = urls_added_ f
  /\ invalid_skipped_ (fst (try_add f url timeout)) = invalid_skipped_ f
  /\ duplicates_skipped_ (fst (try_add f url timeout))
     = size_incr (duplicates_skipped_ f).
Proof.
  intros Hin.
  assert (Hp : probe_visited f url = (count_duplicate f, Some false)).
  { rewrite probe_visited_eq. by rewrite decide_True. }
  assert (Ht : try_add f url timeout = (count_duplicate f, false)).
  { rewrite try_add_eq. by rewrite decide_True. }
  split; [done|]. split.
  { simpl. by rewrite Hp. }
  rewrite Ht. by repeat split.
Qed.

(** C9.  Shutdown is idempotent.  For [N >= 1], [N] calls of [shutdown()]
    leave the frontier, and so its queue, in the very state one call
    leaves; [is_shutdown()] is then true, and stays true after any
    further calls on the frontier, made one after the other or by
    concurrent threads: the flag is never reset. *)
Theorem shutdown_idempotent f (N : nat) :
  1 <= N ->
  Nat.iter N shutdown f = shutdown f
  /\ queue_ (Nat.iter N shutdown f) = BoundedQueue.shutdown (queue_ f)
  /\ Nat.iter N BoundedQueue.shutdown (queue_ f)
     = BoundedQueue.shutdown (queue_ f)
  /\ is_shutdown (Nat.iter N shutdown f) = true
  /\ (forall cs : list call,
        is_shutdown (fst (run (Nat.iter N shutdown f) cs)) = true)
  /\ (forall (ths : list thread) schedule,
        is_shutdown
          (fst (run_schedule (Nat.iter N shutdown f, ths) schedule)) = true).
Proof.
  intros HN. destruct N as [|N]; [lia|].
  rewrite iter_shutdown.
  split; [done|]. split; [done|]. split.
  { clear HN. induction N as [|N IH]; [done|].
    change (Nat.iter (S (S N)) BoundedQueue.shutdown (queue_ f))
      with (BoundedQueue.shutdown
              (Nat.iter (S N) BoundedQueue.shutdown (queue_ f))).
    by rewrite IH. }
  split; [done|]. split.
  - intros cs. by apply run_frame.
  - intros ths schedule. by apply (run_schedule_frame schedule (shutdown f, ths)).
Qed.

(** C10.  [invalid_skipped] is never incremented: no call of the
    frontier changes it, run one after the other or interleaved, so on a
    frontier built by the constructor [stats().invalid_skipped] is 0 after
    any sequence of [try_add], [try_add_nowait], [add_batch], [pop],
    [is_visited], [mark_visited] and [shutdown] calls. *)
Theorem invalid_skipped_never_incremented f (cap : nat) (cs : list call)
    schedule :
  invalid_skipped_ (fst (run f cs)) = invalid_skipped_ f
  /\ invalid_skipped_ (fst (run_schedule (spawn f cs) schedule))
     = invalid_skipped_ f
  /\ invalid_skipped (stats (fst (run (new cap) cs))) = 0%Z
  /\ invalid_skipped
       (stats (fst (run_schedule (spawn (new cap) cs) schedule))) = 0%Z.
Proof.
  destruct (run_frame cs f) as (_ & Hseq & _).
  destruct (run_frame cs (new cap)) as (_ & Hseq0 & _).
  destruct (run_schedule_frame schedule (spawn f cs)) as (_ & Hpar & _).
  destruct (run_schedule_frame schedule (spawn (new cap) cs))
    as (_ & Hpar0 & _).
  by split_and!.
Qed.

End FrontierLaws.

(** * The theorems at work on concrete runs *)

Section Runs.
Import URLFrontier.

(** Capacity 2: two pushes succeed, a third is refused when its wait ends,
    and the queue still holds the first two. *)
Example queue_refuses_when_full :
  BoundedQueue.run (BoundedQueue.new 2)
    [BoundedQueue.Push "a" 0; BoundedQueue.Push "b" 0; BoundedQueue.Push "c" 50]
  = ({| BoundedQueue.capacity_ := 2;
        BoundedQueue.items_ := ["a"; "b"];
        BoundedQueue.shutdown_flag_ := false |},
     [BoundedQueue.Pushed "a" true; BoundedQueue.Pushed "b" true;
      BoundedQueue.Pushed "c" false]).
Proof. reflexivity. Qed.

(** Capacity 1 and full: once a pop has made room the waiting push goes
    through. *)
Example queue_push_after_pop :
  BoundedQueue.run
    {| BoundedQueue.capacity_ := 1;
       BoundedQueue.items_ := ["a"];
       BoundedQueue.shutdown_flag_ := false |}
    [BoundedQueue.Pop 0; BoundedQueue.Push "b" 200]
  = ({| BoundedQueue.capacity_ := 1;
        BoundedQueue.items_ := ["b"];
        BoundedQueue.shutdown_flag_ := false |},
     [BoundedQueue.Popped (Some "a"); BoundedQueue.Pushed "b" true]).
Proof. reflexivity. Qed.

(** A batch with a repeated URL on a fresh frontier with room. *)
Example add_batch_counts_new_urls :
  snd (add_batch (new 10) ["u1"; "u1"; "u2"]) = 2%Z
  /\ visited_count (fst (add_batch (new 10) ["u1"; "u1"; "u2"])) = 2
  /\ items (fst (add_batch (new 10) ["u1"; "u1"; "u2"])) = ["u1"; "u2"]
  /\ stats (fst (add_batch (new 10) ["u1"; "u1"; "u2"]))
     = {| urls_added := 2; duplicates_skipped := 1; invalid_skipped := 0 |}.
Proof. by vm_compute. Qed.

(** Two threads race on the same URL: both pass the probe, one inserts, the
    other is turned away by the check under the write lock. *)
Example race_lost_at_the_recheck :
  snd (run_schedule (spawn (new 4) [TryAdd "http://x" 1; TryAdd "http://x" 2])
         [0; 1; 0; 1; 0])
  = [Returned (TryAdd "http://x" 1) (RBool true);
     Returned (TryAdd "http://x" 2) (RBool false)]
  /\ stats (fst (run_schedule
                   (spawn (new 4) [TryAdd "http://x" 1; TryAdd "http://x" 2])
                   [0; 1; 0; 1; 0]))
     = {| urls_added := 1; duplicates_skipped := 1; invalid_skipped := 0 |}.
Proof. by vm_compute. Qed.

Lemma fifo_law_witness :
  let tr := snd (BoundedQueue.run (BoundedQueue.new 2)
                   [BoundedQueue.Push "a" 0; BoundedQueue.Push "b" 0;
                    BoundedQueue.Pop 0; BoundedQueue.Pop 0]) in
  BoundedQueue.dequeued tr !! 0 = Some "a"
  /\ BoundedQueue.dequeued tr !! 1 = Some "b".
Proof.
  intros tr.
  apply (proj2 (fifo_law 2 [BoundedQueue.Push "a" 0; BoundedQueue.Push "b" 0;
                            BoundedQueue.Pop 0; BoundedQueue.Pop 0])
           0 1 "a" "b").
  - reflexivity.
  - reflexivity.
  - lia.
  - simpl. lia.
Defined.

Lemma drain_after_shutdown_witness :
  let q := {| BoundedQueue.capacity_ := 3;
              BoundedQueue.items_ := ["a"; "b"];
              BoundedQueue.shutdown_flag_ := false |} in
  let tr := snd (BoundedQueue.run (BoundedQueue.shutdown q)
                   [BoundedQueue.Pop 0; BoundedQueue.Push "c" 50;
                    BoundedQueue.Pop 1000; BoundedQueue.Pop 0]) in
  BoundedQueue.pop_results tr !! 1 = Some (Some "b")
  /\ BoundedQueue.pop_results tr !! 2 = Some None.
Proof.
  intros q tr.
  pose proof (drain_after_shutdown q
                [BoundedQueue.Pop 0; BoundedQueue.Push "c" 50;
                 BoundedQueue.Pop 1000; BoundedQueue.Pop 0])
    as (_ & _ & Hsome & Hnone).
  split.
  - apply (Hsome 1); simpl; lia.
  - apply (Hnone 2); simpl; lia.
Defined.

Lemma shutdown_idempotent_witness :
  1 <= 3 /\ Nat.iter 3 shutdown (new 4) = shutdown (new 4).
Proof.
  split; [lia|]. apply (shutdown_idempotent (new 4) 3). lia.
Defined.

Lemma duplicate_fast_path_witness :
  let f := fst (try_add (new 2) "http://x" 100) in
  "http://x" ∈ visited_ f
  /\ try_add f "http://x" 7 = (count_duplicate f, false)
  /\ queue_ (fst (try_add f "http://x" 7)) = queue_ f.
Proof.
  intros f.
  assert (Hin : "http://x" ∈ visited_ f) by (vm_compute; reflexivity).
  split; [exact Hin|].
  pose proof (duplicate_fast_path f "http://x" 7 Hin)
    as (_ & _ & Hcall & Hqueue & _).
  split; [exact Hcall|exact Hqueue].
Defined.

Lemma no_rollback_on_push_failure_witness :
  let f := fst (try_add (new 1) "http://a" 100) in
  ("http://b" ∉ visited_ f)
  /\ snd (BoundedQueue.push (queue_ f) "http://b" 100) = false
  /\ snd (try_add f "http://b" 100) = false
  /\ "http://b" ∈ visited_ (fst (try_add f "http://b" 100))
  /\ snd (try_add (fst (run (fst (try_add f "http://b" 100)) [Pop 0]))
            "http://b" 100) = false.
Proof.
  intros f.
  assert (Hnew : "http://b" ∉ visited_ f).
  { vm_compute. intros H. discriminate H. }
  assert (Hfull : snd (BoundedQueue.push (queue_ f) "http://b" 100) = false)
    by reflexivity.
  pose proof (no_rollback_on_push_failure f "http://b" 100 Hnew Hfull)
    as (Hret & Hin & _ & Hlater & _).
  split; [exact Hnew|]. split; [exact Hfull|].
  split; [exact Hret|]. split; [exact Hin|].
  exact (proj2 (Hlater [Pop 0] 100%Z)).
Defined.

Lemma dedup_law_witness :
  let pre := fst (try_add (new 2) "http://x" 100) in
  let post := count_duplicate pre in
  let loser := Running (TryAdd "http://x" 7) (InTryAdd AtInsert) in
  let race := run_schedule
                (spawn (new 2) (map (TryAdd "http://x") [100; 0; 5]%Z))
                [0; 1; 0; 1; 2; 0] in
  try_add_log (new 2) "http://x" [100; 0; 5]%Z !! 1 = Some (pre, false, post)
  /\ "http://x" ∈ visited_ pre
  /\ duplicates_skipped_ post = size_incr (duplicates_skipped_ pre)
  /\ snd (step pre loser) = Returned (TryAdd "http://x" 7) (RBool false)
  /\ duplicates_skipped_ (fst (step pre loser))
     = size_incr (duplicates_skipped_ pre)
  /\ sum_list_with returned (snd race) = 3
  /\ duplicates_skipped_ (fst race) = 2%Z.
Proof.
  intros pre post loser race.
  assert (Hentry : try_add_log (new 2) "http://x" [100; 0; 5]%Z !! 1
                   = Some (pre, false, post)) by (vm_compute; reflexivity).
  assert (Hall : sum_list_with returned (snd race) = 3)
    by (vm_compute; reflexivity).
  pose proof (dedup_law (new 2) "http://x" [100; 0; 5]%Z
                [TryAdd "http://x" 1; TryAdd "http://x" 2]
                [0; 1; 0; 1; 2; 0] pre 7%Z AtInsert)
    as (_ & Hlog & _ & Hloser & _ & _ & _ & _ & _ & _ & Hrace).
  destruct (Hlog 1 pre false post Hentry) as (Hlater & Hdup & _).
  assert (Hin : "http://x" ∈ visited_ pre) by (apply Hlater; lia).
  assert (Hp : AtInsert <> AtPush) by discriminate.
  destruct (Hloser Hin Hp) as (Hret & Hcount & _).
  split; [exact Hentry|]. split; [exact Hin|].
  split; [exact (proj1 (proj2 (Hdup Hin)))|].
  split; [exact Hret|]. split; [exact Hcount|]. split; [exact Hall|].
  fold race in Hrace. rewrite (Hrace Hall). vm_compute. reflexivity.
Defined.

Lemma visited_before_enqueued_witness :
  let cfg := run_schedule
               (spawn (new 2) [TryAdd "http://x" 1; TryAdd "http://x" 2; Pop 3])
               [0; 1; 0] in
  snd cfg !! 0 = Some (Running (TryAdd "http://x" 1) (InTryAdd AtPush))
  /\ "http://x" ∈ visited_ (fst cfg).
Proof.
  intros cfg.
  assert (Hth : snd cfg !! 0
                = Some (Running (TryAdd "http://x" 1) (InTryAdd AtPush)))
    by (vm_compute; reflexivity).
  split; [exact Hth|].
  exact (proj1 (visited_before_enqueued 2
                  [TryAdd "http://x" 1; TryAdd "http://x" 2; Pop 3]
                  [0; 1; 0] [])
           0 _ "http://x" Hth eq_refl).
Defined.

Lemma counter_accounting_witness :
  let g := fst (try_add (new 2) "http://x" 100) in
  let cfg := spawn (new 4) [TryAdd "http://x" 1; TryAdd "http://x" 2] in
  "http://x" ∈ visited_ g
  /\ section_exit g AtInsert "http://x" 7 = Some ExitDuplicate
  /\ exits cfg [0; 1; 0; 1; 0] = [ExitDuplicate; ExitAdded]
  /\ duplicates_skipped_ (fst (run_schedule cfg [0; 1; 0; 1; 0]))
     = Nat.iter 1 size_incr 0%Z.
Proof.
  intros g cfg.
  assert (Hin : "http://x" ∈ visited_ g) by (vm_compute; reflexivity).
  assert (Hexits : exits cfg [0; 1; 0; 1; 0] = [ExitDuplicate; ExitAdded])
    by (vm_compute; reflexivity).
  pose proof (counter_accounting g "http://x" 7%Z 0 0%Z 0%Z AtInsert cfg
                [0; 1; 0; 1; 0])
    as (_ & _ & _ & _ & _ & _ & Hdup & _ & _ & Hsched).
  cbn zeta in Hsched. destruct Hsched as (_ & Hcount & _).
  rewrite Hexits in Hcount.
  split; [exact Hin|].
  split; [apply Hdup; split; [discriminate|exact Hin]|].
  split; [exact Hexits|exact Hcount].
Defined.

(** C1 as stated fails: with the queue full, [try_add] of a new URL
    returns false (no call returns true) and [duplicates_skipped] is not
    incremented. *)
Lemma dedup_law_as_stated_fails :
  let f := fst (try_add (new 1) "http://a" 100) in
  let log := try_add_log f "http://b" [100%Z] in
  ~ ((forall (i j : nat) pre_i post_i pre_j post_j,
         log !! i = Some (pre_i, true, post_i) ->
         log !! j = Some (pre_j, true, post_j) ->
         i = j)
     /\ (forall (i : nat) pre r post,
           log !! i = Some (pre, r, post) ->
           r = true
           \/ (r = false
               /\ duplicates_skipped_ post
                  = size_incr (duplicates_skipped_ pre)))).
Proof.
  intros f log [_ Hother].
  destruct (Hother 0 f false (fst (try_add f "http://b" 100)))
    as [Htrue|[_ Hdup]].
  - vm_compute. reflexivity.
  - discriminate Htrue.
  - vm_compute in Hdup. discriminate Hdup.
Qed.

(** C3 as stated fails: with the queue full, [try_add] of a new URL
    returns false and none of the three counters moves. *)
Lemma counter_accounting_as_stated_fails :
  let f := fst (try_add (new 1) "http://a" 100) in
  let f' := fst (try_add f "http://b" 100) in
  snd (try_add f "http://b" 100) = false
  /\ stats f' = stats f
  /\ ~ ((urls_added_ f' = size_incr (urls_added_ f)
         /\ duplicates_skipped_ f' = duplicates_skipped_ f
         /\ invalid_skipped_ f' = invalid_skipped_ f)
        \/ (urls_added_ f' = urls_added_ f
            /\ duplicates_skipped_ f' = size_incr (duplicates_skipped_ f)
            /\ invalid_skipped_ f' = invalid_skipped_ f)
        \/ (urls_added_ f' = urls_added_ f
            /\ duplicates_skipped_ f' = duplicates_skipped_ f
            /\ invalid_skipped_ f' = size_incr (invalid_skipped_ f))).
Proof.
  intros f f'. split; [reflexivity|]. split; [reflexivity|].
  intros [(H & _ & _)|[(_ & H & _)|(_ & _ & H)]];
    vm_compute in H; discriminate H.
Qed.

End Runs.

(** * Further properties of the frontier *)

Section Further.
Import URLFrontier.
Implicit Types (f : URLFrontier.t) (url u : string) (timeout : milliseconds).
Implicit Types (th : thread) (cfg : config) (schedule : list nat).

(** Every step of every thread is of one of the kinds of [transition]. *)
Lemma step_transition f th : transition f th (fst (step f th)) (snd (step f th)).
Proof.
  destruct th as [c l|c r]; [|by apply quiet_step].
  destruct c as [url timeout|url|urls|timeout|url|url|];
    destruct l as [|p|p burl rest count];
    try (by apply quiet_step); cbn [step].
  - destruct p; cbn [try_add_section].
    + rewrite probe_visited_eq. case_decide; cbn [fst snd];
        [by apply duplicate_step|by apply quiet_step].
    + rewrite insert_visited_eq. case_decide; cbn [fst snd];
        [by apply duplicate_step|by apply (insert_step _ _ _ _ url)].
    + rewrite enqueue_eq.
      destruct (snd (BoundedQueue.push (queue_ f) url timeout)) eqn:E;
        cbn [fst snd];
        [by apply (push_step _ _ _ _ url timeout)
        |by apply (refused_step _ _ _ _ url timeout)].
  - destruct p; cbn [try_add_section].
    + rewrite probe_visited_eq. case_decide; cbn [fst snd];
        [by apply duplicate_step|by apply quiet_step].
    + rewrite insert_visited_eq. case_decide; cbn [fst snd];
        [by apply duplicate_step|by apply (insert_step _ _ _ _ url)].
    + rewrite enqueue_eq.
      destruct (snd (BoundedQueue.push (queue_ f) url 0)) eqn:E;
        cbn [fst snd];
        [by apply (push_step _ _ _ _ url 0%Z)
        |by apply (refused_step _ _ _ _ url 0%Z)].
  - destruct p; cbn [try_add_section].
    + rewrite probe_visited_eq. case_decide; cbn [fst snd];
        [destruct rest; by apply duplicate_step|by apply quiet_step].
    + rewrite insert_visited_eq. case_decide; cbn [fst snd];
        [destruct rest; by apply duplicate_step
        |by apply (insert_step _ _ _ _ burl)].
    + rewrite enqueue_eq.
      destruct (snd (BoundedQueue.push (queue_ f) burl 0)) eqn:E;
        destruct rest; cbn [fst snd];
        (by apply (push_step _ _ _ _ burl 0%Z))
        || (by apply (refused_step _ _ _ _ burl 0%Z)).
  - cbn [exec]. unfold pop.
    destruct (BoundedQueue.pop (queue_ f) timeout) as [q r] eqn:E.
    cbn [fst snd]. apply (pop_step _ _ _ _ timeout); rewrite ?E; try done.
    by destruct r.
  - by apply (mark_step _ _ _ _ url).
  - by apply shutdown_step.
Qed.

(** What an accepted push and a pop do to the items of the queue. *)
Lemma push_accepted {T : Type} (q : BoundedQueue.t T) (v : T) timeout :
  snd (BoundedQueue.push q v timeout) = true ->
  BoundedQueue.items_ (fst (BoundedQueue.push q v timeout))
  = BoundedQueue.items_ q ++ [v]
  /\ length (BoundedQueue.items_ q) < BoundedQueue.capacity_ q
  /\ BoundedQueue.shutdown_flag_ q = false.
Proof.
  unfold BoundedQueue.push.
  destruct (BoundedQueue.shutdown_flag_ q); [done|].
  destruct (Nat.ltb_spec (length (BoundedQueue.items_ q))
              (BoundedQueue.capacity_ q)); [done|done].
Qed.

Lemma pop_items {T : Type} (q : BoundedQueue.t T) timeout :
  BoundedQueue.items_ q
  = option_list (snd (BoundedQueue.pop q timeout))
    ++ BoundedQueue.items_ (fst (BoundedQueue.pop q timeout)).
Proof.
  unfold BoundedQueue.pop. by destruct (BoundedQueue.items_ q) eqn:E.
Qed.

(** Replacing thread [i] by [th'] and the frontier by [f'] keeps every URL
    in one place, provided the queue of [f'] is free of repetitions and of
    the URLs the other threads hold, and the URL [th'] holds, if any, is
    visited and is nowhere else. *)
Lemma handed_out_once_update cfg (i : nat) th f' th' :
  handed_out_once cfg ->
  snd cfg !! i = Some th ->
  visited_ (fst cfg) ⊆ visited_ f' ->
  NoDup (items f') ->
  (forall u, u ∈ items f' -> u ∈ visited_ f') ->
  (forall (j : nat) thj u,
      j <> i -> snd cfg !! j = Some thj -> holding thj = Some u ->
      u ∉ items f') ->
  (forall u, holding th' = Some u ->
      u ∈ visited_ f' /\ (u ∉ items f')
      /\ forall (j : nat) thj,
           j <> i -> snd cfg !! j = Some thj -> holding thj <> Some u) ->
  handed_out_once (f', <[i := th']> (snd cfg)).
Proof.
  intros (Hnd & Hqv & Hh & Huniq) Hi Hv Hnd' Hqv' Hothers Hmoved.
  assert (Hlen : i < length (snd cfg)) by (by eapply lookup_lt_Some).
  split_and!; cbn [fst snd]; [done|done| |].
  - intros j thj u Hj Hu.
    destruct (decide (j = i)) as [->|Hne].
    + rewrite list_lookup_insert_eq in Hj by done. simplify_eq.
      destruct (Hmoved u Hu) as (? & ? & _). done.
    + rewrite list_lookup_insert_ne in Hj by done.
      split; [|by eapply Hothers].
      by eapply Hv, Hh.
  - intros j k thj thk u Hj Hk Huj Huk.
    destruct (decide (j = i)) as [->|Hnej];
      destruct (decide (k = i)) as [->|Hnek]; try done.
    + rewrite list_lookup_insert_eq in Hj by done.
      rewrite list_lookup_insert_ne in Hk by done. simplify_eq.
      destruct (Hmoved u Huj) as (_ & _ & Hfree).
      by destruct (Hfree k thk Hnek Hk).
    + rewrite list_lookup_insert_ne in Hj by done.
      rewrite list_lookup_insert_eq in Hk by done. simplify_eq.
      destruct (Hmoved u Huk) as (_ & _ & Hfree).
      by destruct (Hfree j thj Hnej Hj).
    + rewrite list_lookup_insert_ne in Hj by done.
      rewrite list_lookup_insert_ne in Hk by done.
      by eapply Huniq.
Qed.

Lemma step_at_handed_out_once cfg (i : nat) :
  handed_out_once cfg -> handed_out_once (step_at cfg i).
Proof.
  intros Hinv.
  destruct (step_at_cases cfg i) as [[_ ->]|(th & Hth & ->)]; [done|].
  pose proof Hinv as (Hnd & Hqv & Hh & Huniq).
  assert (Hmine : forall u, holding th = Some u ->
    forall (j : nat) thj, j <> i -> snd cfg !! j = Some thj ->
    holding thj <> Some u).
  { intros u Hu j thj Hne Hj Huj. apply Hne. by eapply Huniq. }
  destruct (step_transition (fst cfg) th)
    as [Hf Hh'|Hf Hnone Hh'|u Hnew Hf Hnone Hh'|u timeout Hu Hok Hf Hh'
       |u timeout Hu Hno Hf Hh'|timeout Hnone Hf Hh'|u Hf Hnone Hh'
       |Hf Hnone Hh'];
    rewrite Hf; apply (handed_out_once_update cfg i th); try exact Hinv;
    try exact Hth.
  - (* quiet *)
    done.
  - done.
  - done.
  - intros j thj v _ Hj Hv. by destruct (Hh j thj v Hj Hv).
  - intros v Hv. rewrite Hh' in Hv. destruct (Hh i th v Hth Hv).
    split_and!; try done. by apply Hmine.
  - (* duplicate *)
    done.
  - exact Hnd.
  - exact Hqv.
  - intros j thj v _ Hj Hv. by destruct (Hh j thj v Hj Hv).
  - intros v Hv. by rewrite Hh' in Hv.
  - (* insert *)
    apply union_subseteq_r.
  - exact Hnd.
  - intros v Hv. apply elem_of_union_r. by apply Hqv.
  - intros j thj v _ Hj Hv. by destruct (Hh j thj v Hj Hv).
  - intros v Hv. rewrite Hh' in Hv. simplify_eq. split_and!.
    + apply elem_of_union_l. by apply elem_of_singleton.
    + intros Hin. by apply Hnew, Hqv.
    + intros j thj _ Hj Hv. apply Hnew. by destruct (Hh j thj v Hj Hv).
  - (* push accepted *)
    done.
  - destruct (push_accepted _ _ _ Hok) as (Hitems & _).
    unfold items. simpl. rewrite Hitems.
    apply NoDup_app. split_and!; [done| |apply NoDup_singleton].
    intros v Hv ->%list_elem_of_singleton. by destruct (Hh i th u Hth Hu).
  - destruct (push_accepted _ _ _ Hok) as (Hitems & _).
    unfold items. simpl. rewrite Hitems.
    intros v [Hv|Hv%list_elem_of_singleton]%elem_of_app; [by apply Hqv|].
    subst v. by destruct (Hh i th u Hth Hu).
  - destruct (push_accepted _ _ _ Hok) as (Hitems & _).
    unfold items. simpl. rewrite Hitems.
    intros j thj v Hne Hj Hv [Hin|Hin%list_elem_of_singleton]%elem_of_app.
    + by destruct (Hh j thj v Hj Hv).
    + subst v. by apply (Hmine u Hu j thj).
  - intros v Hv. by rewrite Hh' in Hv.
  - (* push refused *)
    done.
  - done.
  - done.
  - intros j thj v _ Hj Hv. by destruct (Hh j thj v Hj Hv).
  - intros v Hv. by rewrite Hh' in Hv.
  - (* pop *)
    done.
  - pose proof (pop_items (queue_ (fst cfg)) timeout) as Hitems.
    unfold items in *. simpl. rewrite Hitems in Hnd.
    by apply NoDup_app in Hnd as (_ & _ & ?).
  - pose proof (pop_items (queue_ (fst cfg)) timeout) as Hitems.
    unfold items in *. simpl. intros v Hv. apply Hqv.
    rewrite Hitems. apply elem_of_app. by right.
  - pose proof (pop_items (queue_ (fst cfg)) timeout) as Hitems.
    unfold items in *. simpl. intros j thj v _ Hj Hv Hin.
    destruct (Hh j thj v Hj Hv) as [_ Hout]. apply Hout.
    rewrite Hitems. apply elem_of_app. by right.
  - pose proof (pop_items (queue_ (fst cfg)) timeout) as Hitems.
    unfold items in *. simpl. intros v Hv. rewrite Hh' in Hv.
    rewrite Hv in Hitems. simpl in Hitems.
    assert (Hhead : v ∈ BoundedQueue.items_ (queue_ (fst cfg))).
    { rewrite Hitems. apply elem_of_cons. by left. }
    split_and!.
    + by apply Hqv.
    + rewrite Hitems in Hnd. by apply NoDup_cons in Hnd as [? _].
    + intros j thj _ Hj Hvj. by destruct (Hh j thj v Hj Hvj).
  - (* mark_visited *)
    unfold mark_visited, set_insert. case_decide; simpl; [done|].
    apply union_subseteq_r.
  - exact Hnd.
  - intros v Hv. unfold mark_visited, set_insert.
    case_decide; simpl; [by apply Hqv|]. apply elem_of_union_r. by apply Hqv.
  - intros j thj v _ Hj Hv. by destruct (Hh j thj v Hj Hv).
  - intros v Hv. by rewrite Hh' in Hv.
  - (* shutdown *)
    done.
  - exact Hnd.
  - exact Hqv.
  - intros j thj v _ Hj Hv. by destruct (Hh j thj v Hj Hv).
  - intros v Hv. by rewrite Hh' in Hv.
Qed.

Lemma spawn_handed_out_once f (cs : list call) :
  NoDup (items f) ->
  (forall u, u ∈ items f -> u ∈ visited_ f) ->
  handed_out_once (spawn f cs).
Proof.
  intros Hnd Hqv.
  assert (Hnone : forall c : call, holding (enter c) = None).
  { by intros [url timeout|url|[|url rest]|timeout|url|url|]. }
  split_and!; [done|done| |].
  - intros i th u (c & _ & ->)%spawn_lookup Hu. by rewrite Hnone in Hu.
  - intros i j thi thj u (c & _ & ->)%spawn_lookup _ Hu.
    by rewrite Hnone in Hu.
Qed.

(** X3.  On a frontier built by the constructor, under every schedule of
    every threads: the queue never holds a URL twice; two pops never return
    the same URL; and a URL that a pop has returned is visited and is not
    in the queue again. *)
Theorem each_url_handed_out_once (cap : nat) (cs : list call) schedule :
  let cfg := run_schedule (spawn (new cap) cs) schedule in
  NoDup (items (fst cfg))
  /\ (forall (i j : nat) (ti tj : milliseconds) u,
        snd cfg !! i = Some (Returned (Pop ti) (RUrl (Some u))) ->
        snd cfg !! j = Some (Returned (Pop tj) (RUrl (Some u))) ->
        i = j)
  /\ (forall (i : nat) (ti : milliseconds) u,
        snd cfg !! i = Some (Returned (Pop ti) (RUrl (Some u))) ->
        u ∈ visited_ (fst cfg) /\ (u ∉ items (fst cfg))).
Proof.
  intros cfg.
  assert (Hinv : handed_out_once cfg).
  { apply (run_schedule_ind handed_out_once);
      [apply step_at_handed_out_once|].
    apply spawn_handed_out_once; [apply NoDup_nil_2|].
    intros u Hu. by apply elem_of_nil in Hu. }
  destruct Hinv as (Hnd & _ & Hh & Huniq).
  split_and!; [done| |].
  - intros i j ti tj u Hi Hj. by eapply (Huniq i j _ _ u).
  - intros i ti u Hi. by eapply (Hh i).
Qed.

(** A step uses the queue through [push], [pop] and [shutdown] only, so it
    keeps the capacity and stays within it. *)
Lemma step_within_capacity f th :
  capacity (fst (step f th)) = capacity f
  /\ (queue_size f <= capacity f ->
      queue_size (fst (step f th)) <= capacity f).
Proof.
  unfold capacity, queue_size, BoundedQueue.capacity, BoundedQueue.size.
  destruct (step_transition f th)
    as [Hf _|Hf _ _|u _ Hf _ _|u timeout _ Hok Hf _|u timeout _ _ Hf _
       |timeout _ Hf _|u Hf _ _|Hf _ _];
    rewrite Hf; cbn [queue_ count_duplicate set_visited count_added set_queue
                     mark_visited shutdown BoundedQueue.shutdown
                     BoundedQueue.capacity_ BoundedQueue.items_];
    try done.
  - destruct (push_accepted _ _ _ Hok) as (Hitems & Hroom & _).
    rewrite Hitems, length_app, push_capacity. simpl. split; [done|lia].
  - pose proof (pop_items (queue_ f) timeout) as Hitems.
    split.
    + unfold BoundedQueue.pop. by destruct (BoundedQueue.items_ (queue_ f)).
    + rewrite Hitems at 1. rewrite length_app. lia.
Qed.

Lemma length_le_size (l : list string) (X : gset string) :
  NoDup l -> (forall x, x ∈ l -> x ∈ X) -> length l <= size X.
Proof.
  intros Hnd Hsub. rewrite <- (size_list_to_set (C := gset string) l Hnd).
  apply subseteq_size. intros x Hx. apply Hsub.
  by apply elem_of_list_to_set in Hx.
Qed.

(** X4.  The accessors of the header agree with each other at all times.
    On a frontier built with capacity [cap], under every schedule of every
    threads (and so after every sequence of calls): [capacity()] is [cap];
    [queue_size()] is at most [capacity()] and at most [visited_count()];
    and [queue_empty()] is true exactly when [queue_size()] is 0. *)
Theorem frontier_size_bounds (cap : nat) (cs : list call) schedule :
  let f := fst (run_schedule (spawn (new cap) cs) schedule) in
  let g := fst (run (new cap) cs) in
  (capacity f = cap
   /\ queue_size f <= capacity f
   /\ queue_size f <= visited_count f
   /\ (queue_empty f = true <-> queue_size f = 0))
  /\ (capacity g = cap
      /\ queue_size g <= capacity g
      /\ queue_size g <= visited_count g
      /\ (queue_empty g = true <-> queue_size g = 0)).
Proof.
  assert (Hany : forall sch,
    let f := fst (run_schedule (spawn (new cap) cs) sch) in
    capacity f = cap
    /\ queue_size f <= capacity f
    /\ queue_size f <= visited_count f
    /\ (queue_empty f = true <-> queue_size f = 0)).
  { intros sch f.
    assert (Hcap : capacity f = cap /\ queue_size f <= capacity f).
    { subst f.
      apply (run_schedule_ind
               (fun cfg => capacity (fst cfg) = cap
                           /\ queue_size (fst cfg) <= capacity (fst cfg)));
        [|split; [done|cbn; lia]].
      intros cfg i [Hc Hs].
      destruct (step_at_cases cfg i) as [[_ ->]|(th & _ & ->)]; [done|].
      destruct (step_within_capacity (fst cfg) th) as [Hc' Hs'].
      cbn [fst]. rewrite Hc'. split; [done|]. by apply Hs'. }
    assert (Hinv : handed_out_once (run_schedule (spawn (new cap) cs) sch)).
    { apply (run_schedule_ind handed_out_once);
        [apply step_at_handed_out_once|].
      apply spawn_handed_out_once; [apply NoDup_nil_2|].
      intros u Hu. by apply elem_of_nil in Hu. }
    destruct Hinv as (Hnd & Hqv & _). destruct Hcap as [Hc Hs].
    split_and!; [done|done|by apply length_le_size|].
    unfold queue_empty, queue_size, BoundedQueue.empty, BoundedQueue.size.
    by destruct (BoundedQueue.items_ (queue_ f)). }
  intros f g. split; [apply Hany|].
  pose proof (Hany (sequential_schedule 0 cs)) as Hseq.
  rewrite sequential_run_is_a_schedule in Hseq. exact Hseq.
Qed.

Lemma step_after_shutdown f th :
  is_shutdown f = true ->
  is_shutdown (fst (step f th)) = true
  /\ urls_added_ (fst (step f th)) = urls_added_ f
  /\ items (fst (step f th)) `suffix_of` items f.
Proof.
  intros Hdown.
  destruct (step_transition f th)
    as [Hf _|Hf _ _|u _ Hf _ _|u timeout _ Hok Hf _|u timeout _ _ Hf _
       |timeout _ Hf _|u Hf _ _|Hf _ _];
    rewrite Hf; try done.
  - destruct (push_accepted _ _ _ Hok) as (_ & _ & Hup).
    unfold is_shutdown, BoundedQueue.is_shutdown in Hdown. congruence.
  - split_and!.
    + unfold is_shutdown, BoundedQueue.is_shutdown, BoundedQueue.pop in *.
      simpl. by destruct (BoundedQueue.items_ (queue_ f)).
    + done.
    + unfold items. simpl.
      exists (option_list (snd (BoundedQueue.pop (queue_ f) timeout))).
      apply pop_items.
Qed.

(** X5.  Once the frontier is shut down nothing is added any more.  A
    [try_add] then returns false and leaves the queue alone, yet it still
    marks a new URL visited.  Under every schedule of every threads the
    frontier stays shut down, [urls_added] keeps its value, and the queue
    only loses items from its head. *)
Theorem nothing_added_after_shutdown f (ths : list thread) schedule url timeout :
  is_shutdown f = true ->
  let cfg := run_schedule (f, ths) schedule in
  snd (try_add f url timeout) = false
  /\ url ∈ visited_ (fst (try_add f url timeout))
  /\ queue_ (fst (try_add f url timeout)) = queue_ f
  /\ is_shutdown (fst cfg) = true
  /\ urls_added_ (fst cfg) = urls_added_ f
  /\ items (fst cfg) `suffix_of` items f.
Proof.
  intros Hdown cfg.
  assert (Hrefused : snd (BoundedQueue.push (queue_ f) url timeout) = false).
  { unfold is_shutdown, BoundedQueue.is_shutdown in Hdown.
    unfold BoundedQueue.push. by rewrite Hdown. }
  assert (Hcall : snd (try_add f url timeout) = false
                  /\ queue_ (fst (try_add f url timeout)) = queue_ f).
  { rewrite try_add_eq. case_decide; [done|].
    rewrite enqueue_eq. simpl. by rewrite Hrefused. }
  destruct Hcall as [Hret Hqueue].
  split; [done|]. split.
  { rewrite try_add_visited. apply elem_of_union_l. by apply elem_of_singleton. }
  split; [done|].
  subst cfg.
  apply (run_schedule_ind
           (fun cfg => is_shutdown (fst cfg) = true
                       /\ urls_added_ (fst cfg) = urls_added_ f
                       /\ items (fst cfg) `suffix_of` items f));
    [|by split_and!].
  intros cfg i (Hs & Ha & Hsuf).
  destruct (step_at_cases cfg i) as [[_ ->]|(th & _ & ->)]; [done|].
  destruct (step_after_shutdown (fst cfg) th Hs) as (Hs' & Ha' & Hsuf').
  cbn [fst]. split_and!; [done|congruence|by etrans].
Qed.

(** X2.  What [try_add] does to the queue.  It returns true exactly when
    the URL was not visited and [queue_.push] accepted it; the URL is then
    the last item of the queue, which grew by one, had room and was not
    shut down.  When it returns false the queue is exactly as before.  In
    both cases the capacity and the shutdown flag are unchanged. *)
Theorem try_add_queue_effect f url timeout :
  let f' := fst (try_add f url timeout) in
  let r := snd (try_add f url timeout) in
  (r = true <->
   (url ∉ visited_ f) /\ snd (BoundedQueue.push (queue_ f) url timeout) = true)
  /\ (r = true ->
      items f' = items f ++ [url]
      /\ queue_size f' = S (queue_size f)
      /\ queue_size f < capacity f
      /\ is_shutdown f = false)
  /\ (r = false -> queue_ f' = queue_ f)
  /\ capacity f' = capacity f
  /\ is_shutdown f' = is_shutdown f.
Proof.
  intros f' r. subst f' r. rewrite try_add_eq.
  unfold capacity, queue_size, is_shutdown, items,
    BoundedQueue.capacity, BoundedQueue.size, BoundedQueue.is_shutdown.
  destruct (decide (url ∈ visited_ f)) as [Hin|Hnew].
  { cbn [fst snd count_duplicate queue_].
    split_and!; try done. split; [done|]. by intros [? _]. }
  rewrite enqueue_eq. cbn [set_visited queue_].
  destruct (snd (BoundedQueue.push (queue_ f) url timeout)) eqn:Hpush;
    cbn [fst snd count_added set_queue set_visited queue_].
  - destruct (push_accepted _ _ _ Hpush) as (Hitems & Hroom & Hup).
    pose proof (push_capacity (queue_ f) url timeout) as Hcap.
    assert (Hflag : BoundedQueue.shutdown_flag_
                      (fst (BoundedQueue.push (queue_ f) url timeout)) = false).
    { unfold BoundedQueue.push. rewrite Hup.
      by destruct (_ <? _). }
    split_and!; try done.
    + intros _. rewrite Hitems, length_app. simpl.
      split_and!; [done|lia|done|done].
    + congruence.
  - split_and!; try done. split; [done|]. by intros [_ ?].
Qed.

Lemma try_add_items f url timeout :
  items (fst (try_add f url timeout))
  = items f ++ accepted_by f (TryAdd url timeout).
Proof.
  destruct (try_add_queue_effect f url timeout) as (_ & Htrue & Hfalse & _).
  cbn [accepted_by].
  destruct (snd (try_add f url timeout)).
  - by destruct (Htrue eq_refl) as [-> _].
  - unfold items. rewrite (Hfalse eq_refl). by rewrite app_nil_r.
Qed.

Lemma accepted_by_try_add_new f url timeout u :
  u ∈ accepted_by f (TryAdd url timeout) -> u = url /\ (url ∉ visited_ f).
Proof.
  destruct (try_add_queue_effect f url timeout) as (Hiff & _).
  cbn [accepted_by]. destruct (snd (try_add f url timeout)).
  - intros ->%list_elem_of_singleton. split; [done|]. by apply Hiff.
  - by intros ?%elem_of_nil.
Qed.

(** The loop of [add_batch]: what it leaves in the queue and in the visited
    set, and what it counts. *)
Lemma add_batch_from_effect urls : forall f (count : Z),
  let f' := fst (add_batch_from f urls count) in
  items f' = items f ++ batch_accepted f urls
  /\ visited_ f' = visited_ f ∪ list_to_set urls
  /\ NoDup (batch_accepted f urls)
  /\ (forall u, u ∈ batch_accepted f urls -> (u ∉ visited_ f) /\ u ∈ urls)
  /\ urls_added_ f'
     = Nat.iter (length (batch_accepted f urls)) size_incr (urls_added_ f)
  /\ snd (add_batch_from f urls count)
     = Nat.iter (length (batch_accepted f urls)) size_incr count.
Proof.
  induction urls as [|url rest IH]; intros f count.
  { cbn. split_and!; try done.
    - by rewrite app_nil_r.
    - by rewrite union_empty_r_L.
    - apply NoDup_nil_2.
    - by intros u ?%elem_of_nil. }
  cbn [add_batch_from batch_accepted]. unfold try_add_nowait.
  pose proof (try_add_items f url 0) as Hitems.
  pose proof (try_add_visited f url 0) as Hvis.
  pose proof (try_add_outcome f url 0) as Hout.
  pose proof (accepted_by_try_add_new f url 0) as Hnew.
  cbn [accepted_by] in Hitems, Hnew. cbn zeta in Hout.
  destruct (try_add f url 0) as [f1 added]. cbn [fst snd] in *.
  destruct (IH f1 (if added then size_incr count else count))
    as (IH1 & IH2 & IH3 & IH4 & IH5 & IH6).
  cbn zeta in IH1, IH2, IH5.
  assert (Hadded : urls_added_ f1
                   = if added then size_incr (urls_added_ f)
                     else urls_added_ f).
  { unfold stats in Hout.
    destruct Hout as [(_ & -> & Hs)|[(_ & -> & _ & Hs)|(_ & -> & _ & Hs)]];
      by simplify_eq. }
  split_and!.
  - rewrite IH1, Hitems. by rewrite app_assoc.
  - rewrite IH2, Hvis, list_to_set_cons.
    rewrite (comm_L (∪) {[url]} (visited_ f)). by rewrite (assoc_L (∪)).
  - apply NoDup_app. split_and!; [|intros u Hu Hrest|done].
    + destruct added; [apply NoDup_singleton|apply NoDup_nil_2].
    + destruct (Hnew u Hu) as [-> _].
      destruct (IH4 url Hrest) as [Hout1 _]. apply Hout1.
      rewrite Hvis. apply elem_of_union_l. by apply elem_of_singleton.
  - intros u [Hu|Hu]%elem_of_app.
    + destruct (Hnew u Hu) as [-> ?]. split; [done|].
      apply elem_of_cons. by left.
    + destruct (IH4 u Hu) as [Hout1 ?]. split.
      * intros Hin. apply Hout1. rewrite Hvis. by apply elem_of_union_r.
      * apply elem_of_cons. by right.
  - rewrite IH5, Hadded, length_app.
    destruct added; cbn [length Nat.add]; [|done].
    by rewrite Nat.iter_succ_r.
  - rewrite IH6, length_app.
    destruct added; cbn [length Nat.add]; [|done].
    by rewrite Nat.iter_succ_r.
Qed.

(** What one call leaves in the queue and in the visited set, and what it
    counts and reports. *)
Lemma exec_effect f (c : call) :
  let f' := fst (exec f c) in
  let r := snd (exec f c) in
  popped [r] ++ items f' = items f ++ accepted_by f c
  /\ visited_ f' = visited_ f ∪ list_to_set (submitted c)
  /\ NoDup (accepted_by f c)
  /\ (forall u, u ∈ accepted_by f c -> (u ∉ visited_ f) /\ u ∈ submitted c)
  /\ urls_added_ f'
     = Nat.iter (length (accepted_by f c)) size_incr (urls_added_ f)
  /\ reported c r = Nat.iter (length (accepted_by f c)) size_incr 0%Z.
Proof.
  assert (Hone : forall url timeout,
    let f' := fst (try_add f url timeout) in
    let r := snd (try_add f url timeout) in
    let l := if r then [url] else [] in
    items f' = items f ++ l
    /\ visited_ f' = visited_ f ∪ list_to_set [url]
    /\ NoDup l
    /\ (forall u, u ∈ l -> (u ∉ visited_ f) /\ u ∈ [url])
    /\ urls_added_ f' = Nat.iter (length l) size_incr (urls_added_ f)
    /\ (if r then 1%Z else 0%Z) = Nat.iter (length l) size_incr 0%Z).
  { intros url timeout f' r l.
    pose proof (try_add_items f url timeout) as Hitems.
    pose proof (try_add_visited f url timeout) as Hvis.
    pose proof (try_add_outcome f url timeout) as Hout.
    pose proof (accepted_by_try_add_new f url timeout) as Hnew.
    cbn [accepted_by] in Hitems, Hnew. cbn zeta in Hout. unfold stats in Hout.
    fold f' r in Hitems, Hvis, Hout, Hnew. fold l in Hitems, Hnew.
    split_and!.
    - done.
    - rewrite Hvis. cbn [list_to_set]. rewrite union_empty_r_L.
      apply (comm_L (∪)).
    - subst l. destruct r; [apply NoDup_singleton|apply NoDup_nil_2].
    - intros u Hu. destruct (Hnew u Hu) as [-> ?]. split; [done|].
      by apply list_elem_of_singleton.
    - subst l.
      destruct Hout as [(_ & -> & Hs)|[(_ & -> & _ & Hs)|(_ & -> & _ & Hs)]];
        by simplify_eq.
    - subst l. by destruct r. }
  destruct c as [url timeout|url|urls|timeout|url|url|]; cbn zeta.
  - cbn [exec accepted_by submitted reported].
    destruct (Hone url timeout) as (H1 & H2 & H3 & H4 & H5 & H6).
    destruct (try_add f url timeout) as [f' r]. cbn [fst snd] in *.
    split_and!; try done; by destruct r.
  - cbn [exec accepted_by submitted reported]. unfold try_add_nowait.
    destruct (Hone url 0%Z) as (H1 & H2 & H3 & H4 & H5 & H6).
    destruct (try_add f url 0) as [f' r]. cbn [fst snd] in *.
    split_and!; try done; by destruct r.
  - cbn [exec accepted_by submitted reported]. unfold add_batch.
    destruct (add_batch_from_effect urls f 0)
      as (H1 & H2 & H3 & H4 & H5 & H6).
    destruct (add_batch_from f urls 0) as [f' n]. cbn [fst snd] in *.
    by split_and!.
  - cbn [exec accepted_by submitted reported list_to_set]. unfold pop.
    pose proof (pop_items (queue_ f) timeout) as Hitems.
    destruct (BoundedQueue.pop (queue_ f) timeout) as [q r].
    cbn [fst snd] in *. unfold items. cbn [set_queue queue_].
    rewrite Hitems, app_nil_r, union_empty_r_L.
    split_and!; try done; try apply NoDup_nil_2;
      try (by intros u ?%elem_of_nil); by destruct r.
  - cbn. rewrite app_nil_r, union_empty_r_L.
    split_and!; try done; try apply NoDup_nil_2;
      try (by intros u ?%elem_of_nil).
  - cbn [exec accepted_by submitted reported fst snd popped app].
    unfold mark_visited, set_insert, items.
    rewrite app_nil_r. cbn [list_to_set]. rewrite union_empty_r_L.
    split_and!; try done; try apply NoDup_nil_2;
      try (by intros u ?%elem_of_nil).
    case_decide as Hin; cbn [fst set_visited visited_].
    + symmetry. rewrite (comm_L (∪)).
      apply subseteq_union_1_L. by apply singleton_subseteq_l.
    + apply (comm_L (∪)).
  - cbn. rewrite app_nil_r, union_empty_r_L.
    split_and!; try done; try apply NoDup_nil_2;
      try (by intros u ?%elem_of_nil).
Qed.

Lemma popped_cons (r : result) (rs : list result) :
  popped (r :: rs) = popped [r] ++ popped rs.
Proof. by destruct r as [b|n|[url|]|]. Qed.

(** The same over a sequence of calls. *)
Lemma run_effect (cs : list call) : forall f,
  let f' := fst (run f cs) in
  let rs := snd (run f cs) in
  popped rs ++ items f' = items f ++ accepted f cs
  /\ visited_ f' = visited_ f ∪ list_to_set (concat (map submitted cs))
  /\ NoDup (accepted f cs)
  /\ (forall u, u ∈ accepted f cs ->
        (u ∉ visited_ f) /\ u ∈ concat (map submitted cs))
  /\ urls_added_ f'
     = Nat.iter (length (accepted f cs)) size_incr (urls_added_ f).
Proof.
  induction cs as [|c cs IH]; intros f.
  { cbn. rewrite app_nil_r, union_empty_r_L.
    split_and!; try done; try apply NoDup_nil_2;
      try (by intros u ?%elem_of_nil). }
  cbn zeta. rewrite frontier_run_cons. cbn [fst snd map concat accepted].
  destruct (exec_effect f c) as (E1 & E2 & E3 & E4 & E5 & _).
  destruct (IH (fst (exec f c))) as (IH1 & IH2 & IH3 & IH4 & IH5).
  cbn zeta in *.
  split_and!.
  - rewrite popped_cons, <- app_assoc, IH1, app_assoc, E1.
    by rewrite app_assoc.
  - rewrite IH2, E2, list_to_set_app_L. by rewrite (assoc_L (∪)).
  - apply NoDup_app. split_and!; [done| |done].
    intros u Hu Hrest. destruct (E4 u Hu) as [_ Hsub].
    destruct (IH4 u Hrest) as [Hout _]. apply Hout.
    rewrite E2. apply elem_of_union_r. by apply elem_of_list_to_set.
  - intros u [Hu|Hu]%elem_of_app.
    + destruct (E4 u Hu) as [? ?]. split; [done|].
      apply elem_of_app. by left.
    + destruct (IH4 u Hu) as [Hout ?]. split.
      * intros Hin. apply Hout. rewrite E2. by apply elem_of_union_l.
      * apply elem_of_app. by right.
  - rewrite IH5, E5, length_app. by rewrite Nat.add_comm, Nat.iter_add.
Qed.

(** X1.  The visited set after any sequence of calls is exactly the
    visited set before together with every URL the calls submitted: a URL
    given to [try_add] is visited afterwards whatever the call returned,
    no URL is ever removed, and no URL that was not submitted becomes
    visited. *)
Theorem visited_after_calls f (cs : list call) :
  let f' := fst (run f cs) in
  visited_ f' = visited_ f ∪ list_to_set (concat (map submitted cs))
  /\ (forall url timeout,
        TryAdd url timeout ∈ cs -> url ∈ visited_ f')
  /\ (forall url, url ∈ visited_ f -> url ∈ visited_ f')
  /\ (forall url,
        url ∈ visited_ f' ->
        url ∈ visited_ f \/ url ∈ concat (map submitted cs)).
Proof.
  intros f'. destruct (run_effect cs f) as (_ & Hvis & _).
  cbn zeta in Hvis. fold f' in Hvis.
  split_and!; [done| | |].
  - intros url timeout Hin. rewrite Hvis. apply elem_of_union_r.
    apply elem_of_list_to_set, list_elem_of_In, in_concat.
    exists [url]. split; [|by left].
    apply (in_map submitted cs (TryAdd url timeout)).
    by apply list_elem_of_In.
  - intros url Hin. rewrite Hvis. by apply elem_of_union_l.
  - intros url Hin. rewrite Hvis in Hin.
    apply elem_of_union in Hin as [?|Hin]; [by left|right].
    by apply elem_of_list_to_set in Hin.
Qed.

(** X7.  The frontier hands URLs out in the order it accepted them.  Over
    any sequence of calls the URLs returned by [pop], followed by those
    still queued, are the URLs queued at the start followed by the URLs the
    calls put into the queue, in that order.  The URLs put into the queue
    are pairwise distinct and none of them was visited at the start; on a
    frontier built by the constructor no URL is therefore popped twice. *)
Theorem frontier_fifo f (cap : nat) (cs : list call) :
  let f' := fst (run f cs) in
  let rs := snd (run f cs) in
  popped rs ++ items f' = items f ++ accepted f cs
  /\ popped rs `prefix_of` items f ++ accepted f cs
  /\ NoDup (accepted f cs)
  /\ (forall u, u ∈ accepted f cs -> u ∉ visited_ f)
  /\ NoDup (popped (snd (run (new cap) cs))
            ++ items (fst (run (new cap) cs))).
Proof.
  intros f' rs.
  destruct (run_effect cs f) as (Hcons & _ & Hnd & Hnew & _).
  cbn zeta in Hcons. fold f' rs in Hcons.
  split_and!; [done| |done| |].
  - rewrite <- Hcons. by eexists.
  - intros u Hu. by destruct (Hnew u Hu).
  - destruct (run_effect cs (new cap)) as (Hcons0 & _ & Hnd0 & _).
    cbn zeta in Hcons0. by rewrite Hcons0.
Qed.

Lemma iter_size_incr_mod (k : nat) (x : Z) :
  (Nat.iter k size_incr x mod SIZE_MODULUS
   = (x + Z.of_nat k) mod SIZE_MODULUS)%Z.
Proof.
  induction k as [|k IH].
  { cbn [Nat.iter]. by rewrite Z.add_0_r. }
  rewrite Nat.iter_succ. unfold size_incr at 1.
  rewrite Z.mod_mod by done.
  rewrite <- Zplus_mod_idemp_l, IH, Zplus_mod_idemp_l.
  f_equal. lia.
Qed.

Lemma iter_size_incr_range (k : nat) (x : Z) :
  (0 <= x < SIZE_MODULUS)%Z ->
  (0 <= Nat.iter k size_incr x < SIZE_MODULUS)%Z.
Proof.
  intros Hx. destruct k as [|k]; [done|].
  rewrite Nat.iter_succ. unfold size_incr at 1. by apply Z.mod_pos_bound.
Qed.

Lemma reported_total_mod (cs : list call) : forall f,
  (reported_total cs (snd (run f cs)) mod SIZE_MODULUS
   = Z.of_nat (length (accepted f cs)) mod SIZE_MODULUS)%Z.
Proof.
  induction cs as [|c cs IH]; intros f; [done|].
  rewrite frontier_run_cons. cbn [snd reported_total accepted].
  destruct (exec_effect f c) as (_ & _ & _ & _ & _ & Hrep).
  cbn zeta in Hrep.
  rewrite Zplus_mod, IH, Hrep, iter_size_incr_mod, Z.add_0_l.
  rewrite <- Zplus_mod, length_app. f_equal. lia.
Qed.

(** X6.  [urls_added] agrees with what the calls returned.  On a frontier
    built by the constructor, after any sequence of calls,
    [stats().urls_added] is, modulo [2^64], the number of URLs put into
    the queue, which is also the number of [try_add] and [try_add_nowait]
    calls that returned true plus the counts returned by [add_batch]. *)
Theorem urls_added_matches_reports (cap : nat) (cs : list call) :
  let f' := fst (run (new cap) cs) in
  let rs := snd (run (new cap) cs) in
  (urls_added (stats f')
   = Z.of_nat (length (accepted (new cap) cs)) mod SIZE_MODULUS)%Z
  /\ (urls_added (stats f') = reported_total cs rs mod SIZE_MODULUS)%Z
  /\ (0 <= urls_added (stats f') < SIZE_MODULUS)%Z.
Proof.
  intros f' rs.
  destruct (run_effect cs (new cap)) as (_ & _ & _ & _ & Hadded).
  cbn zeta in Hadded. fold f' in Hadded. cbn [new urls_added_] in Hadded.
  assert (Hrange : (0 <= urls_added_ f' < SIZE_MODULUS)%Z).
  { rewrite Hadded. by apply iter_size_incr_range. }
  assert (Hcount : (urls_added_ f'
    = Z.of_nat (length (accepted (new cap) cs)) mod SIZE_MODULUS)%Z).
  { rewrite <- (Z.mod_small _ _ Hrange), Hadded. apply iter_size_incr_mod. }
  cbn [stats urls_added]. split; [done|]. split; [|done].
  subst rs. by rewrite reported_total_mod.
Qed.

(** X8.  The check under the write lock only fails in a race.  When
    [try_add] runs without interruption and the probe finds the URL
    absent, the insertion that follows always inserts, so the duplicate
    exit of lines 152-155 is not taken.  A thread takes that exit exactly
    when the URL got into the visited set after its probe. *)
Theorem recheck_fails_only_in_a_race f url timeout :
  snd (probe_visited f url) = None ->
  fst (probe_visited f url) = f
  /\ snd (insert_visited (fst (probe_visited f url)) url) = None
  /\ try_add f url timeout
     = enqueue (fst (insert_visited f url)) url timeout
  /\ forall g,
       snd (step g (Running (TryAdd url timeout) (InTryAdd AtInsert)))
       = Returned (TryAdd url timeout) (RBool false)
       <-> url ∈ visited_ g.
Proof.
  rewrite probe_visited_eq. case_decide as Hnew; [done|]. intros _.
  cbn [fst snd]. split; [done|].
  rewrite try_add_eq, insert_visited_eq, !decide_False by done.
  split; [done|]. split; [done|].
  intros g. cbn [step try_add_section]. rewrite insert_visited_eq.
  by case_decide.
Qed.

(** ** The further properties on concrete runs *)

Lemma visited_after_calls_witness :
  let f := fst (try_add (new 1) "http://a" 100) in
  let cs := [TryAdd "http://b" 100] in
  snd (run f cs) = [RBool false]
  /\ TryAdd "http://b" 100 ∈ cs
  /\ "http://b" ∈ visited_ (fst (run f cs)).
Proof.
  intros f cs.
  assert (Hin : TryAdd "http://b" 100 ∈ cs) by (apply elem_of_cons; by left).
  split; [reflexivity|]. split; [exact Hin|].
  exact (proj1 (proj2 (visited_after_calls f cs)) "http://b" 100%Z Hin).
Defined.

Lemma try_add_queue_effect_witness :
  let f := fst (try_add (new 2) "http://a" 100) in
  snd (try_add f "http://b" 0) = true
  /\ items (fst (try_add f "http://b" 0)) = ["http://a"; "http://b"]
  /\ queue_size (fst (try_add f "http://b" 0)) = 2.
Proof.
  intros f.
  assert (Hret : snd (try_add f "http://b" 0) = true)
    by (vm_compute; reflexivity).
  pose proof (proj1 (proj2 (try_add_queue_effect f "http://b" 0)) Hret)
    as (Hitems & Hsize & _).
  split; [exact Hret|]. split; [exact Hitems|exact Hsize].
Defined.

Lemma each_url_handed_out_once_witness :
  let cfg := run_schedule
               (spawn (new 2) [TryAdd "http://x" 1; Pop 5; Pop 6])
               [0; 0; 0; 1; 2] in
  snd cfg !! 1 = Some (Returned (Pop 5) (RUrl (Some "http://x")))
  /\ "http://x" ∈ visited_ (fst cfg)
  /\ ("http://x" ∉ items (fst cfg)).
Proof.
  intros cfg.
  assert (Hpop : snd cfg !! 1
                 = Some (Returned (Pop 5) (RUrl (Some "http://x"))))
    by (vm_compute; reflexivity).
  split; [exact Hpop|].
  exact (proj2 (proj2 (each_url_handed_out_once 2
                         [TryAdd "http://x" 1; Pop 5; Pop 6]
                         [0; 0; 0; 1; 2]))
           1 5%Z "http://x" Hpop).
Defined.

Lemma frontier_size_bounds_witness :
  let f := fst (run_schedule
                  (spawn (new 1) [TryAdd "http://a" 1; TryAdd "http://b" 2])
                  [0; 0; 0; 1; 1; 1]) in
  queue_size f = 1 /\ capacity f = 1 /\ visited_count f = 2
  /\ queue_size f <= capacity f /\ queue_size f <= visited_count f.
Proof.
  intros f.
  pose proof (proj1 (frontier_size_bounds 1
                       [TryAdd "http://a" 1; TryAdd "http://b" 2]
                       [0; 0; 0; 1; 1; 1]))
    as (_ & Hcap & Hvis & _).
  split; [reflexivity|]. split; [reflexivity|].
  split; [vm_compute; reflexivity|].
  split; [exact Hcap|exact Hvis].
Defined.

Lemma nothing_added_after_shutdown_witness :
  let f := shutdown (new 2) in
  is_shutdown f = true
  /\ snd (try_add f "http://x" 100) = false
  /\ "http://x" ∈ visited_ (fst (try_add f "http://x" 100)).
Proof.
  intros f.
  assert (Hdown : is_shutdown f = true) by reflexivity.
  pose proof (nothing_added_after_shutdown f [] [] "http://x" 100 Hdown)
    as (Hret & Hin & _).
  split; [exact Hdown|]. split; [exact Hret|exact Hin].
Defined.

Lemma frontier_fifo_witness :
  let cs := [TryAdd "http://a" 0; TryAdd "http://b" 0; Pop 0] in
  accepted (new 2) cs = ["http://a"; "http://b"]
  /\ popped (snd (run (new 2) cs)) = ["http://a"]
  /\ ("http://a" ∉ visited_ (new 2)).
Proof.
  intros cs.
  assert (Hacc : accepted (new 2) cs = ["http://a"; "http://b"])
    by (vm_compute; reflexivity).
  split; [exact Hacc|]. split; [reflexivity|].
  apply (proj1 (proj2 (proj2 (proj2 (frontier_fifo (new 2) 2 cs))))).
  rewrite Hacc. apply elem_of_cons. by left.
Defined.

Lemma recheck_fails_only_in_a_race_witness :
  snd (probe_visited (new 2) "http://x") = None
  /\ snd (insert_visited (fst (probe_visited (new 2) "http://x")) "http://x")
     = None.
Proof.
  assert (Hprobe : snd (probe_visited (new 2) "http://x") = None)
    by (vm_compute; reflexivity).
  split; [exact Hprobe|].
  exact (proj1 (proj2 (recheck_fails_only_in_a_race (new 2) "http://x" 0
                         Hprobe))).
Defined.

End Further.
